(** * Compliance sorting of subscription-manager, verified

    A shallow embedding of [src/subscription_manager/cert_sorter.py]:
    [ComplianceManager] (the status aggregator), the observer fan-out of
    [CertSorter], and [StackingGroupSorter].

    Conventions of the embedding.
    - A Python [dict] whose iteration order is never observed is a [gmap];
      the installed-products dict, whose key order decides the order of the
      appends to the server's list, is an association list in insertion
      order.
    - The attributes of [self] and the objects handed out by the status cache
      live in a [Store]; the snapshot returned by the cache is a reference
      into the store's heap, so that a mutation through an alias is seen by
      every holder of the reference.
    - A [KeyError] of a dict subscript is an outcome of the monad [M].
    - Instants ([datetime]) are integers, in seconds.
    - Logging has no effect on the state and is left out. *)

From stdpp Require Import gmap strings list fin_maps sorting.
From Stdlib Require Import ZArith Lia.

Open Scope string_scope.
Open Scope list_scope.

(** ** Constants of the module *)

(** Strings used for status of products. *)
Definition FUTURE_SUBSCRIBED : string := "future_subscribed".
Definition SUBSCRIBED : string := "subscribed".
Definition NOT_SUBSCRIBED : string := "not_subscribed".
Definition EXPIRED : string := "expired".
Definition PARTIALLY_SUBSCRIBED : string := "partially_subscribed".

(** Strings used for status of system. *)
Definition VALID : string := "valid".
Definition INVALID : string := "invalid".
Definition PARTIAL : string := "partial".
Definition DISABLED : string := "disabled".
Definition UNKNOWN : string := "unknown".

Definition RHSM_VALID : Z := 0.
Definition RHSM_EXPIRED : Z := 1.
Definition RHSM_WARNING : Z := 2.
Definition RHN_CLASSIC : Z := 3.
Definition RHSM_PARTIALLY_VALID : Z := 4.
Definition RHSM_REGISTRATION_REQUIRED : Z := 5.

(** ** Data of the collaborators *)

(** A product certificate of the product directory; only its identity is
    observed here. *)
Record ProductCert := { pcert_name : string }.

(** [rhsm.certificate2.Product]: the sorter reads [product.id]. *)
Record Product := { product_id : string }.

(** [rhsm.certificate2.Order]: the stacking sorter reads both fields. *)
Module Order.
Record t := { stacking_id : option string; name : option string }.
End Order.

(** [rhsm.certificate2.EntitlementCertificate]. [valid_range.begin()] and
    [valid_range.end()] are instants; [is_valid()] and [is_expiring()] are
    methods of the rhsm library, taken as the booleans they answer. *)
Record EntitlementCertificate := {
  serial : Z;
  products : list Product;
  valid_range_begin : Z;
  valid_range_end : Z;
  is_valid : bool;
  is_expiring : bool;
  order : option Order.t
}.

(** The JSON payload that the server attaches to a product or a stack. *)
Definition CertJson := string.

(** A structured reason object of the server. *)
Definition Reason := string.

(** [subscription_manager.reasons.Reasons]: built from the list of reasons,
    which it keeps in its attribute [reasons]. *)
Record Reasons := { reasons_list : list Reason }.

(** The compliance status dict of the server. An entry that is [None] is a
    key that the dict does not have; [compliantUntil] may be present and
    null. *)
Record Snapshot := {
  compliantProducts : option (gmap string (list CertJson));
  partiallyCompliantProducts : option (gmap string (list CertJson));
  partialStacks : option (gmap string (list CertJson));
  nonCompliantProducts : option (list string);
  snap_status : option string;
  compliantUntil : option (option string);
  snap_reasons : option (list Reason)
}.

(** References to the dicts handed out by the status cache. *)
Definition ref := nat.

(** ** The attributes of a [ComplianceManager] *)

Record ComplianceManager := {
  installed_products : list (string * ProductCert);
  unentitled_products : gmap string ProductCert;
  expired_products : gmap string (list EntitlementCertificate);
  partially_valid_products : gmap string (list CertJson);
  valid_products : gmap string (list CertJson);
  partial_stacks : gmap string (list CertJson);
  future_products : gmap string (list EntitlementCertificate);
  reasons : Reasons;
  supports_reasons : bool;
  system_status : string;
  valid_entitlement_certs : list EntitlementCertificate;
  status : option ref;
  (** [None] is also the attribute before its first assignment *)
  compliant_until : option Z
}.

Record Store := {
  self : ComplianceManager;
  heap : gmap ref Snapshot
}.

(** What the injected collaborators answer during one call. *)
Record World := {
  (** [inj.require(inj.IDENTITY).is_valid()] *)
  identity_is_valid : bool;
  (** [product_dir.get_installed_products()] *)
  get_installed_products : list (string * ProductCert);
  (** [product_dir.find_by_product(pid)] *)
  find_by_product : string -> option ProductCert;
  (** [entitlement_dir.list()] *)
  entitlement_dir_list : list EntitlementCertificate;
  (** [status_cache.load_status(...)] *)
  load_status : option ref;
  (** [utils.is_simple_content_access(...)] *)
  is_simple_content_access : bool;
  (** [datetime.now(GMT())] *)
  now : Z;
  (** [isodate.parse_date] *)
  parse_date : string -> Z
}.

(** ** A state and exception monad *)

Inductive exn :=
| KeyError (key : string)
| DanglingReference (r : ref).

Inductive outcome (A : Type) :=
| Ok (a : A)
| Raise (e : exn).
Arguments Ok {A} a.
Arguments Raise {A} e.

Definition M (A : Type) : Type := Store -> Store * outcome A.

Definition ret {A} (a : A) : M A := fun s => (s, Ok a).

Definition bind {A B} (m : M A) (k : A -> M B) : M B :=
  fun s => match m s with
           | (s', Ok a) => k a s'
           | (s', Raise e) => (s', Raise e)
           end.

Definition raise {A} (e : exn) : M A := fun s => (s, Raise e).

Notation "'do' x <- m ; k" := (bind m (fun x => k))
  (at level 10, x name, m at level 100, k at level 200).
Notation "'do_' m ; k" := (bind m (fun _ => k))
  (at level 10, m at level 100, k at level 200).

Definition get_self : M ComplianceManager := fun s => (s, Ok (self s)).

Definition modify_self (f : ComplianceManager -> ComplianceManager) : M unit :=
  fun s => ({| self := f (self s); heap := heap s |}, Ok tt).

Definition modify_store (f : Store -> Store) : M unit :=
  fun s => (f s, Ok tt).

(** [status[key]]: the entry [proj] of the dict at [r]. *)
Definition getitem {A} (r : ref) (key : string) (proj : Snapshot -> option A)
  : M A :=
  fun s => match heap s !! r with
           | None => (s, Raise (DanglingReference r))
           | Some d => match proj d with
                       | Some v => (s, Ok v)
                       | None => (s, Raise (KeyError key))
                       end
           end.

(** [key in status] *)
Definition contains {A} (r : ref) (proj : Snapshot -> option A) : M bool :=
  fun s => match heap s !! r with
           | None => (s, Raise (DanglingReference r))
           | Some d => (s, Ok (bool_decide (is_Some (proj d))))
           end.

(** [k in d] for a dict [d] *)
Definition has_key {V} (d : gmap string V) (k : string) : bool :=
  bool_decide (is_Some (d !! k)).

(** [x in l] for a list of strings *)
Definition in_list (x : string) (l : list string) : bool :=
  bool_decide (x ∈ l).

(** ** Attribute assignment

    [set_f v m] is [m] after [self.f = v]. *)

Definition set_installed_products v (m : ComplianceManager) : ComplianceManager :=
  {| installed_products := v;
     unentitled_products := unentitled_products m;
     expired_products := expired_products m;
     partially_valid_products := partially_valid_products m;
     valid_products := valid_products m;
     partial_stacks := partial_stacks m;
     future_products := future_products m;
     reasons := reasons m;
     supports_reasons := supports_reasons m;
     system_status := system_status m;
     valid_entitlement_certs := valid_entitlement_certs m;
     status := status m;
     compliant_until := compliant_until m |}.

Definition set_unentitled_products v (m : ComplianceManager) : ComplianceManager :=
  {| installed_products := installed_products m;
     unentitled_products := v;
     expired_products := expired_products m;
     partially_valid_products := partially_valid_products m;
     valid_products := valid_products m;
     partial_stacks := partial_stacks m;
     future_products := future_products m;
     reasons := reasons m;
     supports_reasons := supports_reasons m;
     system_status := system_status m;
     valid_entitlement_certs := valid_entitlement_certs m;
     status := status m;
     compliant_until := compliant_until m |}.

Definition set_expired_products v (m : ComplianceManager) : ComplianceManager :=
  {| installed_products := installed_products m;
     unentitled_products := unentitled_products m;
     expired_products := v;
     partially_valid_products := partially_valid_products m;
     valid_products := valid_products m;
     partial_stacks := partial_stacks m;
     future_products := future_products m;
     reasons := reasons m;
     supports_reasons := supports_reasons m;
     system_status := system_status m;
     valid_entitlement_certs := valid_entitlement_certs m;
     status := status m;
     compliant_until := compliant_until m |}.

Definition set_partially_valid_products v (m : ComplianceManager) : ComplianceManager :=
  {| installed_products := installed_products m;
     unentitled_products := unentitled_products m;
     expired_products := expired_products m;
     partially_valid_products := v;
     valid_products := valid_products m;
     partial_stacks := partial_stacks m;
     future_products := future_products m;
     reasons := reasons m;
     supports_reasons := supports_reasons m;
     system_status := system_status m;
     valid_entitlement_certs := valid_entitlement_certs m;
     status := status m;
     compliant_until := compliant_until m |}.

Definition set_valid_products v (m : ComplianceManager) : ComplianceManager :=
  {| installed_products := installed_products m;
     unentitled_products := unentitled_products m;
     expired_products := expired_products m;
     partially_valid_products := partially_valid_products m;
     valid_products := v;
     partial_stacks := partial_stacks m;
     future_products := future_products m;
     reasons := reasons m;
     supports_reasons := supports_reasons m;
     system_status := system_status m;
     valid_entitlement_certs := valid_entitlement_certs m;
     status := status m;
     compliant_until := compliant_until m |}.

Definition set_partial_stacks v (m : ComplianceManager) : ComplianceManager :=
  {| installed_products := installed_products m;
     unentitled_products := unentitled_products m;
     expired_products := expired_products m;
     partially_valid_products := partially_valid_products m;
     valid_products := valid_products m;
     partial_stacks := v;
     future_products := future_products m;
     reasons := reasons m;
     supports_reasons := supports_reasons m;
     system_status := system_status m;
     valid_entitlement_certs := valid_entitlement_certs m;
     status := status m;
     compliant_until := compliant_until m |}.

Definition set_future_products v (m : ComplianceManager) : ComplianceManager :=
  {| installed_products := installed_products m;
     unentitled_products := unentitled_products m;
     expired_products := expired_products m;
     partially_valid_products := partially_valid_products m;
     valid_products := valid_products m;
     partial_stacks := partial_stacks m;
     future_products := v;
     reasons := reasons m;
     supports_reasons := supports_reasons m;
     system_status := system_status m;
     valid_entitlement_certs := valid_entitlement_certs m;
     status := status m;
     compliant_until := compliant_until m |}.

Definition set_reasons v (m : ComplianceManager) : ComplianceManager :=
  {| installed_products := installed_products m;
     unentitled_products := unentitled_products m;
     expired_products := expired_products m;
     partially_valid_products := partially_valid_products m;
     valid_products := valid_products m;
     partial_stacks := partial_stacks m;
     future_products := future_products m;
     reasons := v;
     supports_reasons := supports_reasons m;
     system_status := system_status m;
     valid_entitlement_certs := valid_entitlement_certs m;
     status := status m;
     compliant_until := compliant_until m |}.

Definition set_supports_reasons v (m : ComplianceManager) : ComplianceManager :=
  {| installed_products := installed_products m;
     unentitled_products := unentitled_products m;
     expired_products := expired_products m;
     partially_valid_products := partially_valid_products m;
     valid_products := valid_products m;
     partial_stacks := partial_stacks m;
     future_products := future_products m;
     reasons := reasons m;
     supports_reasons := v;
     system_status := system_status m;
     valid_entitlement_certs := valid_entitlement_certs m;
     status := status m;
     compliant_until := compliant_until m |}.

Definition set_system_status v (m : ComplianceManager) : ComplianceManager :=
  {| installed_products := installed_products m;
     unentitled_products := unentitled_products m;
     expired_products := expired_products m;
     partially_valid_products := partially_valid_products m;
     valid_products := valid_products m;
     partial_stacks := partial_stacks m;
     future_products := future_products m;
     reasons := reasons m;
     supports_reasons := supports_reasons m;
     system_status := v;
     valid_entitlement_certs := valid_entitlement_certs m;
     status := status m;
     compliant_until := compliant_until m |}.

Definition set_valid_entitlement_certs v (m : ComplianceManager) : ComplianceManager :=
  {| installed_products := installed_products m;
     unentitled_products := unentitled_products m;
     expired_products := expired_products m;
     partially_valid_products := partially_valid_products m;
     valid_products := valid_products m;
     partial_stacks := partial_stacks m;
     future_products := future_products m;
     reasons := reasons m;
     supports_reasons := supports_reasons m;
     system_status := system_status m;
     valid_entitlement_certs := v;
     status := status m;
     compliant_until := compliant_until m |}.

Definition set_status v (m : ComplianceManager) : ComplianceManager :=
  {| installed_products := installed_products m;
     unentitled_products := unentitled_products m;
     expired_products := expired_products m;
     partially_valid_products := partially_valid_products m;
     valid_products := valid_products m;
     partial_stacks := partial_stacks m;
     future_products := future_products m;
     reasons := reasons m;
     supports_reasons := supports_reasons m;
     system_status := system_status m;
     valid_entitlement_certs := valid_entitlement_certs m;
     status := v;
     compliant_until := compliant_until m |}.

Definition set_compliant_until v (m : ComplianceManager) : ComplianceManager :=
  {| installed_products := installed_products m;
     unentitled_products := unentitled_products m;
     expired_products := expired_products m;
     partially_valid_products := partially_valid_products m;
     valid_products := valid_products m;
     partial_stacks := partial_stacks m;
     future_products := future_products m;
     reasons := reasons m;
     supports_reasons := supports_reasons m;
     system_status := system_status m;
     valid_entitlement_certs := valid_entitlement_certs m;
     status := status m;
     compliant_until := v |}.

Definition set_nonCompliantProducts v (d : Snapshot) : Snapshot :=
  {| compliantProducts := compliantProducts d;
     partiallyCompliantProducts := partiallyCompliantProducts d;
     partialStacks := partialStacks d;
     nonCompliantProducts := v;
     snap_status := snap_status d;
     compliantUntil := compliantUntil d;
     snap_reasons := snap_reasons d |}.

(** ** Truth values of Python containers *)

(** [bool(d)] for a dict: it has an entry. *)
Definition dict_bool {V} (d : gmap string V) : bool := negb (Nat.eqb (size d) 0).

(** [bool(l)] for a list: it has an element. *)
Definition list_bool {A} (l : list A) : bool := negb (Nat.eqb (length l) 0).

(** [bool(s)] for an optional string: [None] and the empty string are
    false. *)
Definition str_bool (o : option string) : bool :=
  match o with
  | Some s => negb (Nat.eqb (String.length s) 0)
  | None => false
  end.

(** ** ComplianceManager *)

Definition is_registered (w : World) : bool := identity_is_valid w.

(** [get_compliance_status]: the answer of the status cache, kept in
    [self.status]. *)
Definition get_compliance_status (w : World) : M (option ref) :=
  do_ modify_self (set_status (load_status w));
  do m <- get_self;
  ret (status m).

(** The list behind the local name [unentitled_pids]: the very object that
    the dict at [r] holds under [nonCompliantProducts]. *)
Definition unentitled_pids (r : ref) (s : Store) : list string :=
  match heap s !! r with
  | Some d => default [] (nonCompliantProducts d)
  | None => []
  end.

(** [unentitled_pids.append(pid)]: the append goes to the shared object. *)
Definition unentitled_pids_append (r : ref) (pid : string) (s : Store) : Store :=
  {| self := self s;
     heap := alter (fun d => set_nonCompliantProducts
                               ((fun l => l ++ [pid]) <$> nonCompliantProducts d) d)
                   r (heap s) |}.

(** Body of the loop over [list(self.installed_products.keys())]. *)
Definition add_unreported (r : ref) (s : Store) (pid : string) : Store :=
  if negb (has_key (valid_products (self s)) pid)
     && negb (has_key (partially_valid_products (self s)) pid)
     && negb (in_list pid (unentitled_pids r s))
  then unentitled_pids_append r pid s
  else s.

(** Body of the loop over [unentitled_pids]. *)
Definition file_unentitled (w : World) (m : ComplianceManager)
  (unentitled_pid : string) : ComplianceManager :=
  match find_by_product w unentitled_pid with
  | None => m
  | Some prod_cert =>
      set_unentitled_products
        (<[unentitled_pid := prod_cert]> (unentitled_products m)) m
  end.

(** [d.setdefault(k, []).append(x)] *)
Definition setdefault_append {V} (d : gmap string (list V)) (k : string) (x : V)
  : gmap string (list V) :=
  <[k := default [] (d !! k) ++ [x]]> d.

(** The dict [unknown_products] of [_scan_entitlement_certs]. *)
Definition unknown_products (m : ComplianceManager) : list (string * ProductCert) :=
  List.filter
    (fun kv => negb (has_key (valid_products m) kv.1)
               && negb (has_key (partially_valid_products m) kv.1))
    (installed_products m).

(** Body of the loop over [ent_cert.products]. *)
Definition scan_product (w : World) (unknown : list (string * ProductCert))
  (ent_cert : EntitlementCertificate) (m : ComplianceManager) (product : Product)
  : ComplianceManager :=
  if in_list (product_id product) (unknown.*1) then
    if (now w <? valid_range_begin ent_cert)%Z then
      set_future_products
        (setdefault_append (future_products m) (product_id product) ent_cert) m
    else if (valid_range_end ent_cert <? now w)%Z then
      set_expired_products
        (setdefault_append (expired_products m) (product_id product) ent_cert) m
    else m
  else m.

(** Body of the loop over [ent_certs]. *)
Definition scan_cert (w : World) (unknown : list (string * ProductCert))
  (m : ComplianceManager) (ent_cert : EntitlementCertificate) : ComplianceManager :=
  let m1 :=
    if is_valid ent_cert
    then set_valid_entitlement_certs (valid_entitlement_certs m ++ [ent_cert]) m
    else m in
  foldl (scan_product w unknown ent_cert) m1 (products ent_cert).

Definition _scan_entitlement_certs (w : World) : M unit :=
  modify_self
    (fun m => foldl (scan_cert w (unknown_products m)) m (entitlement_dir_list w)).

(** [log_products] only writes to the log. *)
Definition log_products : M unit := ret tt.

(** The [if]/[elif] chain that assigns [self.system_status]. *)
Definition derive_system_status (r : ref) : M unit :=
  do present <- contains r snap_status;
  do given <- (if present
               then do v <- getitem r "status" snap_status;
                    ret (negb (Nat.eqb (String.length v) 0))
               else ret false);
  if given then
    do v <- getitem r "status" snap_status;
    modify_self (set_system_status v)
  else
    do ncp <- getitem r "nonCompliantProducts" nonCompliantProducts;
    if list_bool ncp then modify_self (set_system_status INVALID)
    else
      do m <- get_self;
      if dict_bool (partially_valid_products m)
         || dict_bool (partial_stacks m)
         || list_bool (reasons_list (reasons m))
      then modify_self (set_system_status PARTIAL)
      else modify_self (set_system_status UNKNOWN).

Definition _parse_server_status (w : World) : M unit :=
  if negb (is_registered w) then ret tt
  else
    do st <- get_compliance_status w;
    match st with
    | None => ret tt
    | Some r =>
        let is_sca := is_simple_content_access w in
        do v <- getitem r "compliantProducts" compliantProducts;
        do_ modify_self (set_valid_products v);
        do v <- getitem r "partiallyCompliantProducts" partiallyCompliantProducts;
        do_ modify_self (set_partially_valid_products v);
        do v <- getitem r "partialStacks" partialStacks;
        do_ modify_self (set_partial_stacks v);
        do has_reasons <- contains r snap_reasons;
        do_ (if has_reasons
             then do_ modify_self (set_supports_reasons true);
                  do v <- getitem r "reasons" snap_reasons;
                  modify_self (set_reasons {| reasons_list := v |})
             else ret tt);
        do_ derive_system_status r;
        do_ modify_self (set_compliant_until None);
        do cu <- getitem r "compliantUntil" compliantUntil;
        do_ (match cu with
             | Some t => modify_self (set_compliant_until (Some (parse_date w t)))
             | None => ret tt
             end);
        (* unentitled_pids = status["nonCompliantProducts"] *)
        do _ <- getitem r "nonCompliantProducts" nonCompliantProducts;
        do_ (if negb is_sca
             then modify_store
                    (fun s => foldl (add_unreported r) s (installed_products (self s)).*1)
             else ret tt);
        do_ modify_store
              (fun s => {| self := foldl (file_unentitled w) (self s) (unentitled_pids r s);
                           heap := heap s |});
        do_ _scan_entitlement_certs w;
        log_products
    end.

Definition load (w : World) : M unit :=
  do_ modify_self (set_installed_products (get_installed_products w));
  do_ modify_self (set_unentitled_products ∅);
  do_ modify_self (set_expired_products ∅);
  do_ modify_self (set_partially_valid_products ∅);
  do_ modify_self (set_valid_products ∅);
  do_ modify_self (set_partial_stacks ∅);
  do_ modify_self (set_future_products ∅);
  do_ modify_self (set_reasons {| reasons_list := [] |});
  do_ modify_self (set_supports_reasons false);
  do_ modify_self (set_system_status UNKNOWN);
  do_ modify_self (set_valid_entitlement_certs []);
  _parse_server_status w.

Definition get_system_status_id (m : ComplianceManager) : string :=
  system_status m.

Definition get_status (w : World) (m : ComplianceManager) (product_id : string)
  : string :=
  if negb (is_registered w) then UNKNOWN
  else if has_key (partially_valid_products m) product_id then PARTIALLY_SUBSCRIBED
  else if has_key (valid_products m) product_id then SUBSCRIBED
  else if has_key (future_products m) product_id then FUTURE_SUBSCRIBED
  else if has_key (expired_products m) product_id then EXPIRED
  else if has_key (unentitled_products m) product_id then NOT_SUBSCRIBED
  else UNKNOWN.

(** The loop returns at the first certificate that is expiring. *)
Fixpoint in_warning_period_loop (l : list EntitlementCertificate) : bool :=
  match l with
  | [] => false
  | entitlement :: rest =>
      if is_expiring entitlement then true else in_warning_period_loop rest
  end.

Definition in_warning_period (m : ComplianceManager) : bool :=
  in_warning_period_loop (valid_entitlement_certs m).

Definition get_status_for_icon (m : ComplianceManager) : Z :=
  if String.eqb (system_status m) "invalid" then RHSM_EXPIRED
  else if String.eqb (system_status m) "partial" then RHSM_PARTIALLY_VALID
  else if in_warning_period m then RHSM_WARNING
  else RHSM_VALID.

(** ** CertSorter: the observer set *)

(** A callable, by identity. *)
Definition Callback := nat.

Record CertSorter := { callbacks : gset Callback }.

Definition add_callback (cb : Callback) (s : CertSorter) : CertSorter :=
  {| callbacks := callbacks s ∪ {[cb]} |}.

(** [set.remove] raises [KeyError] for a missing element, which
    [remove_callback] turns into [False]. *)
Definition remove_callback (cb : Callback) (s : CertSorter) : CertSorter * bool :=
  if bool_decide (cb ∈ callbacks s)
  then ({| callbacks := callbacks s ∖ {[cb]} |}, true)
  else (s, false).

(** What the body of a callback may do to the observer set. *)
Inductive Action :=
| Add (cb : Callback)
| Remove (cb : Callback).

Definition perform (s : CertSorter) (a : Action) : CertSorter :=
  match a with
  | Add cb => add_callback cb s
  | Remove cb => (remove_callback cb s).1
  end.

(** [callback()]: the body of the callback, which sees the sorter as it is
    when called, runs its calls of [add_callback] and [remove_callback]. *)
Definition call (body : Callback -> CertSorter -> list Action) (callback : Callback)
  (s : CertSorter) : CertSorter :=
  foldl perform s (body callback s).

(** [copy(self.callbacks)] *)
Definition copy (X : gset Callback) : gset Callback := X.

(** The loop of [notify] over the copied set, listed in the order [l]; the
    second component is the list of the callbacks invoked, in order. *)
Fixpoint notify_loop (body : Callback -> CertSorter -> list Action)
  (l : list Callback) (s : CertSorter) : CertSorter * list Callback :=
  match l with
  | [] => (s, [])
  | callback :: rest =>
      let '(s', invoked) := notify_loop body rest (call body callback s) in
      (s', callback :: invoked)
  end.

(** [iter] is the order in which Python iterates over a set. *)
Definition notify (body : Callback -> CertSorter -> list Action)
  (iter : gset Callback -> list Callback) (s : CertSorter)
  : CertSorter * list Callback :=
  notify_loop body (iter (copy (callbacks s))) s.

(** ** StackingGroupSorter *)

Record EntitlementGroup := {
  name : option string;
  entitlements : list EntitlementCertificate
}.

Definition add_entitlement_cert (entitlement : EntitlementCertificate)
  (g : EntitlementGroup) : EntitlementGroup :=
  {| name := name g; entitlements := entitlements g ++ [entitlement] |}.

(** [EntitlementGroup(entitlement, name)] *)
Definition new_EntitlementGroup (entitlement : EntitlementCertificate)
  (name : option string) : EntitlementGroup :=
  add_entitlement_cert entitlement {| name := name; entitlements := [] |}.

(** The state of [StackingGroupSorter.__init__]. The dict [stacking_groups]
    and the list [groups] hold the same group objects: the dict maps a
    stacking id to the position of its group in [groups]. *)
Record StackingGroupSorter := {
  groups : list EntitlementGroup;
  stacking_groups : gmap string nat
}.

(** Body of the loop over [entitlements]; the two methods that subclasses
    implement are arguments. *)
Definition sorter_step
  (_get_stacking_id _get_identity_name : EntitlementCertificate -> option string)
  (s : StackingGroupSorter) (entitlement : EntitlementCertificate)
  : StackingGroupSorter :=
  let stacking_id := _get_stacking_id entitlement in
  if str_bool stacking_id then
    match stacking_id with
    | Some sid =>
        match stacking_groups s !! sid with
        | None =>
            let group :=
              new_EntitlementGroup entitlement (_get_identity_name entitlement) in
            {| groups := groups s ++ [group];
               stacking_groups := <[sid := length (groups s)]> (stacking_groups s) |}
        | Some i =>
            {| groups := alter (add_entitlement_cert entitlement) i (groups s);
               stacking_groups := stacking_groups s |}
        end
    | None => s
    end
  else
    {| groups := groups s ++ [new_EntitlementGroup entitlement (Some "")];
       stacking_groups := stacking_groups s |}.

Definition new_StackingGroupSorter
  (_get_stacking_id _get_identity_name : EntitlementCertificate -> option string)
  (entitlements : list EntitlementCertificate) : StackingGroupSorter :=
  foldl (sorter_step _get_stacking_id _get_identity_name)
        {| groups := []; stacking_groups := ∅ |} entitlements.

(** The two methods of [EntitlementCertStackingGroupSorter]. *)
Definition cert_get_stacking_id (cert : EntitlementCertificate) : option string :=
  match order cert with
  | Some o => Order.stacking_id o
  | None => None
  end.

Definition cert_get_identity_name (cert : EntitlementCertificate) : option string :=
  match order cert with
  | Some o => Order.name o
  | None => None
  end.

(** [EntitlementCertStackingGroupSorter(certs)] *)
Definition new_EntitlementCertStackingGroupSorter
  (certs : list EntitlementCertificate) : StackingGroupSorter :=
  new_StackingGroupSorter cert_get_stacking_id cert_get_identity_name certs.

(** ** The other methods of [ComplianceManager] and [CertSorter] *)

(** [get_status_map]: the dict literal, built entry by entry; [gettext] is
    the translation function [_] of [subscription_manager.i18n]. *)
Definition get_status_map (gettext : string -> string) : gmap string string :=
  <[UNKNOWN := gettext "Unknown"]>
    (<[DISABLED := gettext "Disabled"]>
       (<[INVALID := gettext "Invalid"]>
          (<[PARTIAL := gettext "Insufficient"]>
             (<[VALID := gettext "Current"]> ∅)))).

(** [get_system_status]: [status_map.get(self.system_status,
    status_map[UNKNOWN])]; the subscript of the default is evaluated first
    and would raise for a missing key, which is [None] here. *)
Definition get_system_status (gettext : string -> string)
  (m : ComplianceManager) : option string :=
  let status_map := get_status_map gettext in
  match status_map !! UNKNOWN with
  | Some fallback => Some (default fallback (status_map !! system_status m))
  | None => None
  end.

Definition are_reasons_supported (m : ComplianceManager) : bool :=
  supports_reasons m.

Module Manager.
(** [ComplianceManager.is_valid] *)
Definition is_valid (m : ComplianceManager) : bool :=
  String.eqb (system_status m) VALID || String.eqb (system_status m) DISABLED.
End Manager.

(** [CertSorter.has_entitlements] *)
Definition has_entitlements (w : World) : bool :=
  Nat.ltb 0 (length (entitlement_dir_list w)).

(** [CertSorter.on_change]: [self.load()] and then [self.notify()]; an
    exception of the load leaves before the notification. The result is the
    store, the observer set, and the list of the callbacks invoked. *)
Definition on_change (w : World)
  (body : Callback -> CertSorter -> list Action)
  (iter : gset Callback -> list Callback)
  (s : Store) (cs : CertSorter) : Store * CertSorter * outcome (list Callback) :=
  match load w s with
  | (s', Ok _) =>
      let '(cs', invoked) := notify body iter cs in (s', cs', Ok invoked)
  | (s', Raise e) => (s', cs, Raise e)
  end.

(** ** Reasoning about [M]: weakest preconditions

    [wp m Q s]: from [s] the computation [m] returns, and its result and
    final store satisfy [Q]. [wlp m Q s]: if [m] returns from [s], then [Q]
    holds; it may also raise. *)

Definition wp {A} (m : M A) (Q : A -> Store -> Prop) (s : Store) : Prop :=
  match m s with
  | (s', Ok a) => Q a s'
  | (_, Raise _) => False
  end.

Definition wlp {A} (m : M A) (Q : A -> Store -> Prop) (s : Store) : Prop :=
  match m s with
  | (s', Ok a) => Q a s'
  | (_, Raise _) => True
  end.

(** [wpx m Q E s]: from [s] the computation [m] either returns with [Q] or
    raises with [E]. *)
Definition wpx {A} (m : M A) (Q : A -> Store -> Prop)
  (E : exn -> Store -> Prop) (s : Store) : Prop :=
  match m s with
  | (s', Ok a) => Q a s'
  | (s', Raise e) => E e s'
  end.

(** ** The properties that the specification states *)

(** The keys that [_parse_server_status] subscripts without a test. *)
Definition complete (d : Snapshot) : Prop :=
  is_Some (compliantProducts d)
  ∧ is_Some (partiallyCompliantProducts d)
  ∧ is_Some (partialStacks d)
  ∧ is_Some (nonCompliantProducts d)
  ∧ is_Some (compliantUntil d).

(** The ComplianceView: the five buckets, the system status, the
    compliant-until instant and the valid certificates. *)
Record ComplianceView := {
  view_valid : gmap string (list CertJson);
  view_partially_valid : gmap string (list CertJson);
  view_expired : gmap string (list EntitlementCertificate);
  view_future : gmap string (list EntitlementCertificate);
  view_unentitled : gmap string ProductCert;
  view_system_status : string;
  view_compliant_until : option Z;
  view_valid_certs : list EntitlementCertificate
}.

Definition view (m : ComplianceManager) : ComplianceView :=
  {| view_valid := valid_products m;
     view_partially_valid := partially_valid_products m;
     view_expired := expired_products m;
     view_future := future_products m;
     view_unentitled := unentitled_products m;
     view_system_status := system_status m;
     view_compliant_until := compliant_until m;
     view_valid_certs := valid_entitlement_certs m |}.

(** The five buckets, the system status and the valid certificates of [m']
    are those of [m]. *)
Definition buckets_and_status_unchanged (m m' : ComplianceManager) : Prop :=
  valid_products m' = valid_products m
  ∧ partially_valid_products m' = partially_valid_products m
  ∧ expired_products m' = expired_products m
  ∧ future_products m' = future_products m
  ∧ unentitled_products m' = unentitled_products m
  ∧ system_status m' = system_status m
  ∧ valid_entitlement_certs m' = valid_entitlement_certs m.

(** In which of the five buckets a product id is. *)
Definition bucket_membership (m : ComplianceManager) (pid : string) : list bool :=
  [ has_key (valid_products m) pid;
    has_key (partially_valid_products m) pid;
    has_key (expired_products m) pid;
    has_key (future_products m) pid;
    has_key (unentitled_products m) pid ].

Definition buckets_exclusive (m : ComplianceManager) : Prop :=
  ∀ pid, (count_occ bool_dec (bucket_membership m pid) true ≤ 1)%nat.

(** The precedence order of [get_status], as a table. *)
Definition precedence (m : ComplianceManager) (pid : string)
  : list (bool * string) :=
  [ (has_key (partially_valid_products m) pid, PARTIALLY_SUBSCRIBED);
    (has_key (valid_products m) pid, SUBSCRIBED);
    (has_key (future_products m) pid, FUTURE_SUBSCRIBED);
    (has_key (expired_products m) pid, EXPIRED);
    (has_key (unentitled_products m) pid, NOT_SUBSCRIBED) ].

Definition first_bucket (m : ComplianceManager) (pid : string) : option string :=
  snd <$> List.find fst (precedence m pid).

(** The grouping as the specification words it: the groups in the order in
    which their first certificate is met; a certificate without a key is a
    group of its own, with the default name; the group of a key is named
    from the first certificate with that key and has all certificates with
    that key, in the order of the input. [seen] are the keys met before. *)
Fixpoint assemble (key name_of : EntitlementCertificate -> option string)
  (seen : list string) (l : list EntitlementCertificate) : list EntitlementGroup :=
  match l with
  | [] => []
  | c :: rest =>
      match key c with
      | None =>
          {| name := Some ""; entitlements := [c] |}
            :: assemble key name_of seen rest
      | Some k =>
          if bool_decide (k ∈ seen) then assemble key name_of seen rest
          else
            {| name := name_of c;
               entitlements := c :: filter (fun d => key d = Some k) rest |}
              :: assemble key name_of (k :: seen) rest
      end
  end.

(** A key that counts for [if stacking_id:]: an empty one does not. *)
Definition nonempty_key (key : EntitlementCertificate -> option string)
  (c : EntitlementCertificate) : option string :=
  if str_bool (key c) then key c else None.

(** The dict [d] lacks the key [k], one of those that
    [_parse_server_status] subscripts without a test. *)
Definition missing_key (d : Snapshot) (k : string) : Prop :=
  (k = "compliantProducts" ∧ compliantProducts d = None)
  ∨ (k = "partiallyCompliantProducts" ∧ partiallyCompliantProducts d = None)
  ∨ (k = "partialStacks" ∧ partialStacks d = None)
  ∨ (k = "nonCompliantProducts" ∧ nonCompliantProducts d = None)
  ∨ (k = "compliantUntil" ∧ compliantUntil d = None).

(** The certificate [c] has no key, or a key that is not in [seen]. *)
Definition unseen (key : EntitlementCertificate -> option string)
  (seen : list string) (c : EntitlementCertificate) : bool :=
  match key c with
  | Some k => negb (bool_decide (k ∈ seen))
  | None => true
  end.

(** The key of a group: that of its first member. *)
Definition group_key (key : EntitlementCertificate -> option string)
  (g : EntitlementGroup) : option string :=
  head (entitlements g) ≫= key.

(** ** Summaries for the proofs *)

(** The status that the [if]/[elif] chain of [_parse_server_status] assigns,
    from the label of the dict, its non-compliant list, and the two dicts
    and the reasons assigned before. *)
Definition derived_status (label : option string) (ncp : list string)
  (pcp ps : gmap string (list CertJson)) (rs : list Reason) : string :=
  if str_bool label then default "" label
  else if list_bool ncp then INVALID
  else if dict_bool pcp || dict_bool ps || list_bool rs then PARTIAL
  else UNKNOWN.

(** The attributes that the two loops over product ids and the scan of the
    entitlement certificates never assign. *)
Definition server_part (m : ComplianceManager) :=
  (installed_products m, valid_products m, partially_valid_products m,
   partial_stacks m, reasons m, supports_reasons m, system_status m,
   status m, compliant_until m).

(** What a certificate does to the groups that the dict [sg] knows: it
    joins the group of its key, if [sg] has that key. *)
Definition join_step (key : EntitlementCertificate -> option string)
  (sg : gmap string nat) (gs : list EntitlementGroup)
  (d : EntitlementCertificate) : list EntitlementGroup :=
  match nonempty_key key d with
  | Some k =>
      match sg !! k with
      | Some i => alter (add_entitlement_cert d) i gs
      | None => gs
      end
  | None => gs
  end.

(** ** The result of [load], in closed form

    The attributes that [_parse_server_status] assigns from the dict [d]
    before its loops, the list behind [unentitled_pids] after the loop over
    the installed products, and the manager after all loops. The status
    attribute, which holds the reference, is left out. *)

(** The append of the loop over the installed products, on the list. *)
Definition unreported_step (m : ComplianceManager) (l : list string)
  (pid : string) : list string :=
  if negb (has_key (valid_products m) pid)
     && negb (has_key (partially_valid_products m) pid)
     && negb (in_list pid l)
  then l ++ [pid]
  else l.

Definition snapshot_self (w : World) (d : Snapshot) : ComplianceManager :=
  {| installed_products := get_installed_products w;
     unentitled_products := ∅;
     expired_products := ∅;
     partially_valid_products := default ∅ (partiallyCompliantProducts d);
     valid_products := default ∅ (compliantProducts d);
     partial_stacks := default ∅ (partialStacks d);
     future_products := ∅;
     reasons := {| reasons_list := default [] (snap_reasons d) |};
     supports_reasons := bool_decide (is_Some (snap_reasons d));
     system_status :=
       derived_status (snap_status d) (default [] (nonCompliantProducts d))
         (default ∅ (partiallyCompliantProducts d))
         (default ∅ (partialStacks d)) (default [] (snap_reasons d));
     valid_entitlement_certs := [];
     status := None;
     compliant_until := parse_date w <$> default None (compliantUntil d) |}.

Definition reported_pids (w : World) (d : Snapshot) : list string :=
  if is_simple_content_access w then default [] (nonCompliantProducts d)
  else foldl (unreported_step (snapshot_self w d))
             (default [] (nonCompliantProducts d))
             (get_installed_products w).*1.

Definition loaded_self (w : World) (d : Snapshot) : ComplianceManager :=
  let m := foldl (file_unentitled w) (snapshot_self w d) (reported_pids w d) in
  foldl (scan_cert w (unknown_products m)) m (entitlement_dir_list w).

(** The world [w] when the status cache returns [st]. *)
Definition set_load_status (st : option ref) (w : World) : World :=
  {| identity_is_valid := identity_is_valid w;
     get_installed_products := get_installed_products w;
     find_by_product := find_by_product w;
     entitlement_dir_list := entitlement_dir_list w;
     load_status := st;
     is_simple_content_access := is_simple_content_access w;
     now := now w;
     parse_date := parse_date w |}.

(** ** Concrete inputs *)

(** A manager as [load] leaves it without a server answer. *)
Definition blank : ComplianceManager :=
  {| installed_products := [];
     unentitled_products := ∅;
     expired_products := ∅;
     partially_valid_products := ∅;
     valid_products := ∅;
     partial_stacks := ∅;
     future_products := ∅;
     reasons := {| reasons_list := [] |};
     supports_reasons := false;
     system_status := UNKNOWN;
     valid_entitlement_certs := [];
     status := None;
     compliant_until := None |}.

Definition p1_cert : ProductCert := {| pcert_name := "Product One" |}.

Definition find_p1 (pid : string) : option ProductCert :=
  if String.eqb pid "p1" then Some p1_cert else None.

(** An old server: no [status], nothing reported for the installed [p1]. *)
Definition quiet_snapshot : Snapshot :=
  {| compliantProducts := Some ∅;
     partiallyCompliantProducts := Some ∅;
     partialStacks := Some ∅;
     nonCompliantProducts := Some [];
     snap_status := None;
     compliantUntil := Some (Some "2030-01-01T00:00:00+0000");
     snap_reasons := None |}.

(** 2030-01-01T00:00:00Z, in seconds of the epoch. *)
Definition parse_2030 (_ : string) : Z := 1893456000.

Definition quiet_world : World :=
  {| identity_is_valid := true;
     get_installed_products := [("p1", p1_cert)];
     find_by_product := find_p1;
     entitlement_dir_list := [];
     load_status := Some 0%nat;
     is_simple_content_access := false;
     now := 1700000000;
     parse_date := parse_2030 |}.

Definition quiet_store : Store :=
  {| self := blank; heap := {[ 0%nat := quiet_snapshot ]} |}.

(** A manager that holds a valid product from an earlier load. *)
Definition loaded : ComplianceManager :=
  set_system_status VALID (set_valid_products {[ "p1" := ["ent-1"] ]} blank).

Definition unreachable_world : World :=
  {| identity_is_valid := true;
     get_installed_products := [("p1", p1_cert)];
     find_by_product := find_p1;
     entitlement_dir_list := [];
     load_status := None;
     is_simple_content_access := false;
     now := 1700000000;
     parse_date := parse_2030 |}.

Definition loaded_store : Store := {| self := loaded; heap := ∅ |}.

(** [p1] is installed and the server calls it non-compliant; one of its
    entitlements ended before now, the other begins after now. *)
Definition lapsed_cert : EntitlementCertificate :=
  {| serial := 7;
     products := [ {| product_id := "p1" |} ];
     valid_range_begin := 1600000000;
     valid_range_end := 1650000000;
     is_valid := false;
     is_expiring := false;
     order := None |}.

Definition upcoming_cert : EntitlementCertificate :=
  {| serial := 8;
     products := [ {| product_id := "p1" |} ];
     valid_range_begin := 1800000000;
     valid_range_end := 1850000000;
     is_valid := false;
     is_expiring := false;
     order := None |}.

Definition invalid_snapshot : Snapshot :=
  {| compliantProducts := Some ∅;
     partiallyCompliantProducts := Some ∅;
     partialStacks := Some ∅;
     nonCompliantProducts := Some ["p1"];
     snap_status := Some "invalid";
     compliantUntil := Some None;
     snap_reasons := Some [] |}.

Definition lapsed_world : World :=
  {| identity_is_valid := true;
     get_installed_products := [("p1", p1_cert)];
     find_by_product := find_p1;
     entitlement_dir_list := [lapsed_cert; upcoming_cert];
     load_status := Some 0%nat;
     is_simple_content_access := false;
     now := 1700000000;
     parse_date := parse_2030 |}.

Definition lapsed_store : Store :=
  {| self := blank; heap := {[ 0%nat := invalid_snapshot ]} |}.

(** Two certificates whose order carries an empty stacking id. *)
Definition empty_key_cert (n : Z) : EntitlementCertificate :=
  {| serial := n;
     products := [];
     valid_range_begin := 0;
     valid_range_end := 1;
     is_valid := true;
     is_expiring := false;
     order := Some {| Order.stacking_id := Some ""; Order.name := Some "Stack" |} |}.

(** Scenario E: the observers 1 and 2; the callback 1 removes the observer
    2, the callback 2 does nothing. *)
Definition scenario_E_body (cb : Callback) (_ : CertSorter) : list Action :=
  if Nat.eqb cb 1 then [Remove 2%nat] else [].

Definition scenario_E : CertSorter := {| callbacks := {[ 1%nat; 2%nat ]} |}.

(** A callback that registers the observer 3. *)
Definition adding_body (cb : Callback) (_ : CertSorter) : list Action :=
  if Nat.eqb cb 1 then [Add 3%nat] else [].

(** An iteration order: by increasing identity. *)
Definition ascending (X : gset Callback) : list Callback :=
  merge_sort le (elements X).

(** The world [w] when the validity of the identity is [b]. *)
Definition set_identity_is_valid (b : bool) (w : World) : World :=
  {| identity_is_valid := b;
     get_installed_products := get_installed_products w;
     find_by_product := find_by_product w;
     entitlement_dir_list := entitlement_dir_list w;
     load_status := load_status w;
     is_simple_content_access := is_simple_content_access w;
     now := now w;
     parse_date := parse_date w |}.

(** A heap with two dicts of the same content. *)
Definition twin_store : Store :=
  {| self := blank;
     heap := <[ 1%nat := quiet_snapshot ]> {[ 0%nat := quiet_snapshot ]} |}.

(** Certificates of the stack "S1", named "Stack One". *)
Definition stacked_cert (n : Z) : EntitlementCertificate :=
  {| serial := n;
     products := [];
     valid_range_begin := 0;
     valid_range_end := 1;
     is_valid := true;
     is_expiring := false;
     order := Some {| Order.stacking_id := Some "S1";
                      Order.name := Some "Stack One" |} |}.

(** [p1] is installed, the server says nothing of it, and simple content
    access is on. *)
Definition sca_world : World :=
  {| identity_is_valid := true;
     get_installed_products := [("p1", p1_cert)];
     find_by_product := find_p1;
     entitlement_dir_list := [];
     load_status := Some 0%nat;
     is_simple_content_access := true;
     now := 1700000000;
     parse_date := parse_2030 |}.

(** A dict without the key [compliantUntil]. *)
Definition truncated_snapshot : Snapshot :=
  {| compliantProducts := Some ∅;
     partiallyCompliantProducts := Some ∅;
     partialStacks := Some ∅;
     nonCompliantProducts := Some [];
     snap_status := Some "valid";
     compliantUntil := None;
     snap_reasons := None |}.

(** * Proofs *)

(** ** Rules of the weakest precondition *)

Section wp_rules.
Context {A B : Type}.
Implicit Types (s : Store) (r : ref).

Lemma wp_elim (m : M A) (Q : A -> Store -> Prop) s :
  wp m Q s -> ∃ s' a, m s = (s', Ok a) ∧ Q a s'.
Proof.
  unfold wp. destruct (m s) as [s' [a|e]]; [eauto | tauto].
Qed.

Lemma wp_mono (m : M A) (Q Q' : A -> Store -> Prop) s :
  (∀ a s', Q a s' -> Q' a s') -> wp m Q s -> wp m Q' s.
Proof.
  unfold wp. intros HQ. destruct (m s) as [s' [a|e]]; [apply HQ | tauto].
Qed.

Lemma wp_ret (a : A) (Q : A -> Store -> Prop) s : Q a s -> wp (ret a) Q s.
Proof. exact (fun H => H). Qed.

Lemma wp_bind (m : M A) (k : A -> M B) (Q : B -> Store -> Prop) s :
  wp m (fun a s' => wp (k a) Q s') s -> wp (bind m k) Q s.
Proof.
  unfold wp, bind. destruct (m s) as [s' [a|e]]; [exact (fun H => H) | tauto].
Qed.

Lemma wp_getitem r key (proj : Snapshot -> option A) d v
  (Q : A -> Store -> Prop) s :
  heap s !! r = Some d -> proj d = Some v -> Q v s ->
  wp (getitem r key proj) Q s.
Proof. unfold wp, getitem. intros -> ->. exact (fun H => H). Qed.

Lemma wp_contains r (proj : Snapshot -> option A) d
  (Q : bool -> Store -> Prop) s :
  heap s !! r = Some d -> Q (bool_decide (is_Some (proj d))) s ->
  wp (contains r proj) Q s.
Proof. unfold wp, contains. intros ->. exact (fun H => H). Qed.

Lemma wlp_intro (m : M A) (Q : A -> Store -> Prop) s :
  (∀ s' a, m s = (s', Ok a) -> Q a s') -> wlp m Q s.
Proof.
  unfold wlp. intros H. destruct (m s) as [s' [a|e]]; [by apply H | exact I].
Qed.

Lemma wlp_elim (m : M A) (Q : A -> Store -> Prop) s s' a :
  wlp m Q s -> m s = (s', Ok a) -> Q a s'.
Proof. unfold wlp. intros H E. by rewrite E in H. Qed.

Lemma wlp_ret (a : A) (Q : A -> Store -> Prop) s : Q a s -> wlp (ret a) Q s.
Proof. exact (fun H => H). Qed.

Lemma wlp_bind (m : M A) (k : A -> M B) (Q : B -> Store -> Prop) s :
  wlp m (fun a s' => wlp (k a) Q s') s -> wlp (bind m k) Q s.
Proof.
  unfold wlp, bind. destruct (m s) as [s' [a|e]]; [exact (fun H => H) | tauto].
Qed.

Lemma wlp_getitem r key (proj : Snapshot -> option A)
  (Q : A -> Store -> Prop) s :
  (∀ d v, heap s !! r = Some d -> proj d = Some v -> Q v s) ->
  wlp (getitem r key proj) Q s.
Proof.
  unfold wlp, getitem. intros H.
  destruct (heap s !! r) as [d|]; [|exact I].
  destruct (proj d) as [v|] eqn:E; [by eapply H | exact I].
Qed.

Lemma wlp_contains r (proj : Snapshot -> option A)
  (Q : bool -> Store -> Prop) s :
  (∀ d, heap s !! r = Some d -> Q (bool_decide (is_Some (proj d))) s) ->
  wlp (contains r proj) Q s.
Proof.
  unfold wlp, contains. intros H.
  destruct (heap s !! r) as [d|]; [by apply H | exact I].
Qed.
End wp_rules.

Lemma wp_modify_self f (Q : unit -> Store -> Prop) s :
  Q tt {| self := f (self s); heap := heap s |} -> wp (modify_self f) Q s.
Proof. exact (fun H => H). Qed.

Lemma wp_modify_store f (Q : unit -> Store -> Prop) s :
  Q tt (f s) -> wp (modify_store f) Q s.
Proof. exact (fun H => H). Qed.

Lemma wp_get_self (Q : ComplianceManager -> Store -> Prop) s :
  Q (self s) s -> wp get_self Q s.
Proof. exact (fun H => H). Qed.

Lemma wlp_modify_self f (Q : unit -> Store -> Prop) s :
  Q tt {| self := f (self s); heap := heap s |} -> wlp (modify_self f) Q s.
Proof. exact (fun H => H). Qed.

Lemma wlp_modify_store f (Q : unit -> Store -> Prop) s :
  Q tt (f s) -> wlp (modify_store f) Q s.
Proof. exact (fun H => H). Qed.

Lemma wlp_get_self (Q : ComplianceManager -> Store -> Prop) s :
  Q (self s) s -> wlp get_self Q s.
Proof. exact (fun H => H). Qed.

(** Projections of assigned attributes. *)
Ltac simpl_store :=
  cbn [self heap
       installed_products set_installed_products
       unentitled_products set_unentitled_products
       expired_products set_expired_products
       partially_valid_products set_partially_valid_products
       valid_products set_valid_products
       partial_stacks set_partial_stacks
       future_products set_future_products
       reasons set_reasons
       supports_reasons set_supports_reasons
       system_status set_system_status
       valid_entitlement_certs set_valid_entitlement_certs
       status set_status
       compliant_until set_compliant_until].

Ltac simpl_store_in H :=
  cbn [self heap
       installed_products set_installed_products
       unentitled_products set_unentitled_products
       expired_products set_expired_products
       partially_valid_products set_partially_valid_products
       valid_products set_valid_products
       partial_stacks set_partial_stacks
       future_products set_future_products
       reasons set_reasons
       supports_reasons set_supports_reasons
       system_status set_system_status
       valid_entitlement_certs set_valid_entitlement_certs
       status set_status
       compliant_until set_compliant_until] in H.

(** One step of symbolic execution. *)
Ltac wp_step :=
  lazymatch goal with
  | |- wp (bind _ _) _ _ => apply wp_bind
  | |- wp (ret _) _ _ => apply wp_ret; simpl_store
  | |- wp (modify_self _) _ _ => apply wp_modify_self; simpl_store
  | |- wp (modify_store _) _ _ => apply wp_modify_store
  | |- wp get_self _ _ => apply wp_get_self; simpl_store
  | |- wp (getitem _ _ _) _ _ =>
      eapply wp_getitem; [cbn [heap]; eassumption | cbn; first [eassumption | reflexivity] | ]
  | |- wp (contains _ _) _ _ =>
      eapply wp_contains; [cbn [heap]; eassumption | ]
  | |- wp log_products _ _ => apply wp_ret
  | |- wp (_scan_entitlement_certs _) _ _ => apply wp_modify_self
  end.

Ltac wlp_step :=
  lazymatch goal with
  | |- wlp (bind _ _) _ _ => apply wlp_bind
  | |- wlp (ret _) _ _ => apply wlp_ret; simpl_store
  | |- wlp (modify_self _) _ _ => apply wlp_modify_self; simpl_store
  | |- wlp (modify_store _) _ _ => apply wlp_modify_store
  | |- wlp get_self _ _ => apply wlp_get_self; simpl_store
  | |- wlp (getitem _ _ _) _ _ => apply wlp_getitem; cbn [heap]; intros ? ? ? ?
  | |- wlp (contains _ _) _ _ => apply wlp_contains; cbn [heap]; intros ? ?
  | |- wlp log_products _ _ => apply wlp_ret
  | |- wlp (_scan_entitlement_certs _) _ _ => apply wlp_modify_self
  end.

(** ** Loops leave the other attributes alone *)

Lemma foldl_frame {S X C} (proj : S -> C) (f : S -> X -> S) (l : list X) :
  (∀ a x, proj (f a x) = proj a) -> ∀ a, proj (foldl f a l) = proj a.
Proof.
  intros Hf. induction l as [|x l IH]; intros a; simpl; [done|].
  by rewrite IH, Hf.
Qed.

Lemma add_unreported_self r s pid : self (add_unreported r s pid) = self s.
Proof. unfold add_unreported. by case_match. Qed.

Lemma add_unreported_loop_self r l s : self (foldl (add_unreported r) s l) = self s.
Proof. apply foldl_frame. intros; apply add_unreported_self. Qed.

Lemma server_part_file w l m :
  server_part (foldl (file_unentitled w) m l) = server_part m.
Proof.
  apply foldl_frame. intros ? ?. unfold file_unentitled. by case_match.
Qed.

Lemma server_part_scan w u l m :
  server_part (foldl (scan_cert w u) m l) = server_part m.
Proof.
  apply foldl_frame. intros ? ?. unfold scan_cert.
  rewrite foldl_frame; [by case_match|].
  intros ? ?. unfold scan_product. by repeat case_match.
Qed.

(** Each attribute of the server part, after a loop. *)

Lemma installed_products_file w l m :
  installed_products (foldl (file_unentitled w) m l) = installed_products m.
Proof. pose proof (server_part_file w l m) as H. by injection H. Qed.

Lemma installed_products_scan w u l m :
  installed_products (foldl (scan_cert w u) m l) = installed_products m.
Proof. pose proof (server_part_scan w u l m) as H. by injection H. Qed.

Lemma valid_products_file w l m :
  valid_products (foldl (file_unentitled w) m l) = valid_products m.
Proof. pose proof (server_part_file w l m) as H. by injection H. Qed.

Lemma valid_products_scan w u l m :
  valid_products (foldl (scan_cert w u) m l) = valid_products m.
Proof. pose proof (server_part_scan w u l m) as H. by injection H. Qed.

Lemma partially_valid_products_file w l m :
  partially_valid_products (foldl (file_unentitled w) m l) = partially_valid_products m.
Proof. pose proof (server_part_file w l m) as H. by injection H. Qed.

Lemma partially_valid_products_scan w u l m :
  partially_valid_products (foldl (scan_cert w u) m l) = partially_valid_products m.
Proof. pose proof (server_part_scan w u l m) as H. by injection H. Qed.

Lemma partial_stacks_file w l m :
  partial_stacks (foldl (file_unentitled w) m l) = partial_stacks m.
Proof. pose proof (server_part_file w l m) as H. by injection H. Qed.

Lemma partial_stacks_scan w u l m :
  partial_stacks (foldl (scan_cert w u) m l) = partial_stacks m.
Proof. pose proof (server_part_scan w u l m) as H. by injection H. Qed.

Lemma reasons_file w l m :
  reasons (foldl (file_unentitled w) m l) = reasons m.
Proof. pose proof (server_part_file w l m) as H. by injection H. Qed.

Lemma reasons_scan w u l m :
  reasons (foldl (scan_cert w u) m l) = reasons m.
Proof. pose proof (server_part_scan w u l m) as H. by injection H. Qed.

Lemma supports_reasons_file w l m :
  supports_reasons (foldl (file_unentitled w) m l) = supports_reasons m.
Proof. pose proof (server_part_file w l m) as H. by injection H. Qed.

Lemma supports_reasons_scan w u l m :
  supports_reasons (foldl (scan_cert w u) m l) = supports_reasons m.
Proof. pose proof (server_part_scan w u l m) as H. by injection H. Qed.

Lemma system_status_file w l m :
  system_status (foldl (file_unentitled w) m l) = system_status m.
Proof. pose proof (server_part_file w l m) as H. by injection H. Qed.

Lemma system_status_scan w u l m :
  system_status (foldl (scan_cert w u) m l) = system_status m.
Proof. pose proof (server_part_scan w u l m) as H. by injection H. Qed.

Lemma status_file w l m :
  status (foldl (file_unentitled w) m l) = status m.
Proof. pose proof (server_part_file w l m) as H. by injection H. Qed.

Lemma status_scan w u l m :
  status (foldl (scan_cert w u) m l) = status m.
Proof. pose proof (server_part_scan w u l m) as H. by injection H. Qed.

Lemma compliant_until_file w l m :
  compliant_until (foldl (file_unentitled w) m l) = compliant_until m.
Proof. pose proof (server_part_file w l m) as H. by injection H. Qed.

Lemma compliant_until_scan w u l m :
  compliant_until (foldl (scan_cert w u) m l) = compliant_until m.
Proof. pose proof (server_part_scan w u l m) as H. by injection H. Qed.

Create Rewrite HintDb frame.
#[local] Hint Rewrite add_unreported_loop_self
  installed_products_file installed_products_scan
  valid_products_file valid_products_scan
  partially_valid_products_file partially_valid_products_scan
  partial_stacks_file partial_stacks_scan
  reasons_file reasons_scan
  supports_reasons_file supports_reasons_scan
  system_status_file system_status_scan
  status_file status_scan
  compliant_until_file compliant_until_scan : frame.

(** ** The blocks of [_parse_server_status] *)

Lemma wp_reasons_block r d (Q : unit -> Store -> Prop) s :
  heap s !! r = Some d ->
  Q tt {| self := match snap_reasons d with
                  | Some v => set_reasons {| reasons_list := v |}
                                (set_supports_reasons true (self s))
                  | None => self s
                  end;
          heap := heap s |} ->
  wp (if bool_decide (is_Some (snap_reasons d))
      then do_ modify_self (set_supports_reasons true);
           do v <- getitem r "reasons" snap_reasons;
           modify_self (set_reasons {| reasons_list := v |})
      else ret tt) Q s.
Proof.
  intros Hh HQ. destruct (snap_reasons d) as [v|] eqn:E.
  - rewrite bool_decide_eq_true_2 by eauto. by repeat wp_step.
  - rewrite bool_decide_eq_false_2 by (intros [? ?]; done).
    apply wp_ret. by destruct s.
Qed.

Lemma wp_derive_system_status r d ncp (Q : unit -> Store -> Prop) s :
  heap s !! r = Some d -> nonCompliantProducts d = Some ncp ->
  Q tt {| self := set_system_status
                    (derived_status (snap_status d) ncp
                       (partially_valid_products (self s))
                       (partial_stacks (self s))
                       (reasons_list (reasons (self s))))
                    (self s);
          heap := heap s |} ->
  wp (derive_system_status r) Q s.
Proof.
  intros Hh Hncp HQ. unfold derive_system_status, derived_status in *.
  assert (wp (do ncp <- getitem r "nonCompliantProducts" nonCompliantProducts;
              if list_bool ncp then modify_self (set_system_status INVALID)
              else do m <- get_self;
                   if dict_bool (partially_valid_products m)
                      || dict_bool (partial_stacks m)
                      || list_bool (reasons_list (reasons m))
                   then modify_self (set_system_status PARTIAL)
                   else modify_self (set_system_status UNKNOWN))
             (fun _ s' => s' = {| self := set_system_status
                 (if list_bool ncp then INVALID
                  else if dict_bool (partially_valid_products (self s))
                          || dict_bool (partial_stacks (self s))
                          || list_bool (reasons_list (reasons (self s)))
                       then PARTIAL else UNKNOWN) (self s);
                                   heap := heap s |}) s) as Helse.
  { do 2 wp_step. destruct (list_bool ncp); [by wp_step|].
    do 2 wp_step.
    by destruct (dict_bool _ || dict_bool _ || list_bool _); wp_step. }
  do 2 wp_step.
  destruct (snap_status d) as [v|] eqn:E.
  - rewrite bool_decide_eq_true_2 by eauto.
    do 3 wp_step. cbn [str_bool default from_option id] in HQ.
    destruct (negb (Nat.eqb (String.length v) 0)).
    + by repeat wp_step.
    + wp_step. eapply wp_mono; [|exact Helse]. by intros [] ? ->.
  - rewrite bool_decide_eq_false_2 by (intros [? ?]; done).
    cbn [str_bool] in HQ. do 2 wp_step.
    eapply wp_mono; [|exact Helse]. by intros [] ? ->.
Qed.

Lemma wlp_derive_system_status r (Q : unit -> Store -> Prop) s :
  (∀ x, Q tt {| self := set_system_status x (self s); heap := heap s |}) ->
  wlp (derive_system_status r) Q s.
Proof.
  intros HQ. unfold derive_system_status.
  wlp_step. wlp_step. wlp_step.
  assert (∀ given : bool, wlp (if given
     then do v <- getitem r "status" snap_status; modify_self (set_system_status v)
     else do ncp <- getitem r "nonCompliantProducts" nonCompliantProducts;
          if list_bool ncp then modify_self (set_system_status INVALID)
          else do m <- get_self;
               if dict_bool (partially_valid_products m)
                  || dict_bool (partial_stacks m)
                  || list_bool (reasons_list (reasons m))
               then modify_self (set_system_status PARTIAL)
               else modify_self (set_system_status UNKNOWN)) Q s) as Hk.
  { intros [|]; repeat wlp_step; [apply HQ|].
    destruct (list_bool _); repeat wlp_step; [apply HQ|].
    destruct (dict_bool _ || dict_bool _ || list_bool _); wlp_step; apply HQ. }
  destruct (bool_decide _); [do 3 wlp_step; apply Hk | wlp_step; apply (Hk false)].
Qed.

(** Symbolic execution with the two blocks. *)
Ltac wp_run :=
  repeat first
    [ wp_step
    | lazymatch goal with
      | |- wp (derive_system_status _) _ _ =>
          eapply wp_derive_system_status;
          [cbn [heap]; eassumption | first [eassumption | reflexivity]
          | simpl_store]
      | |- wp (if bool_decide (is_Some (snap_reasons _)) then _ else _) _ _ =>
          eapply wp_reasons_block; [cbn [heap]; eassumption | simpl_store]
      end ].

(** Runs [load] on a registered system whose status cache answers with a
    dict that has the required keys, up to the test of [compliantUntil]. *)
Ltac run_load Hreg Hst :=
  unfold load, _parse_server_status, get_compliance_status;
  rewrite Hreg; cbn [negb]; wp_run; rewrite Hst; wp_run.


(** ** Truth values *)

Lemma list_bool_true {A} (l : list A) : list_bool l = true <-> l ≠ [].
Proof. by destruct l. Qed.

Lemma list_bool_false {A} (l : list A) : list_bool l = false <-> l = [].
Proof. by destruct l. Qed.

Lemma dict_bool_false {V} (d : gmap string V) : dict_bool d = false <-> d = ∅.
Proof.
  unfold dict_bool. rewrite negb_false_iff, Nat.eqb_eq. apply map_size_empty_iff.
Qed.

Lemma dict_bool_true {V} (d : gmap string V) : dict_bool d = true <-> d ≠ ∅.
Proof.
  rewrite <- dict_bool_false. destruct (dict_bool d); split; congruence.
Qed.

Lemma str_bool_true (o : option string) :
  str_bool o = true <-> ∃ v, o = Some v ∧ v ≠ "".
Proof.
  destruct o as [[|a v]|]; simpl; split; try done.
  - intros (v & [= <-] & Hv). done.
  - intros _. by eexists.
  - intros (v & ? & _). done.
Qed.

(** ** What [load] does with a snapshot *)

(** On a registered system whose status cache answers with a dict that has
    the required keys, [load] returns, and the attributes it took from the
    server are these. *)
Lemma load_with_snapshot w s r d cp pcp ps ncp cu :
  is_registered w = true -> load_status w = Some r -> heap s !! r = Some d ->
  compliantProducts d = Some cp ->
  partiallyCompliantProducts d = Some pcp ->
  partialStacks d = Some ps ->
  nonCompliantProducts d = Some ncp ->
  compliantUntil d = Some cu ->
  ∃ s', load w s = (s', Ok tt)
        ∧ valid_products (self s') = cp
        ∧ partially_valid_products (self s') = pcp
        ∧ partial_stacks (self s') = ps
        ∧ reasons_list (reasons (self s')) = default [] (snap_reasons d)
        ∧ supports_reasons (self s') = bool_decide (is_Some (snap_reasons d))
        ∧ system_status (self s')
          = derived_status (snap_status d) ncp pcp ps (default [] (snap_reasons d))
        ∧ compliant_until (self s') = parse_date w <$> cu
        ∧ status (self s') = Some r.
Proof.
  intros Hreg Hst Hh Hcp Hpcp Hps Hncp Hcu.
  set (Q := fun (_ : unit) (s' : Store) =>
    valid_products (self s') = cp
    ∧ partially_valid_products (self s') = pcp
    ∧ partial_stacks (self s') = ps
    ∧ reasons_list (reasons (self s')) = default [] (snap_reasons d)
    ∧ supports_reasons (self s') = bool_decide (is_Some (snap_reasons d))
    ∧ system_status (self s')
      = derived_status (snap_status d) ncp pcp ps (default [] (snap_reasons d))
    ∧ compliant_until (self s') = parse_date w <$> cu
    ∧ status (self s') = Some r).
  enough (wp (load w) Q s) as H.
  { apply wp_elim in H as (s' & [] & H & HQ). eauto. }
  run_load Hreg Hst.
  assert (∀ m, Q tt {| self := m; heap := heap s |} ->
     wp (do_ getitem r "nonCompliantProducts" nonCompliantProducts;
         do_ (if negb (is_simple_content_access w)
              then modify_store
                  (λ s0 : Store,
                     foldl (add_unreported r) s0 (installed_products (self s0)).*1)
              else ret ());
         do_ modify_store
                (λ s0 : Store,
                   {| self := foldl (file_unentitled w) (self s0) (unentitled_pids r s0);
                      heap := heap s0 |});
         do_ _scan_entitlement_certs w; log_products)
         Q {| self := m; heap := heap s |}) as Hloops.
  { intros m Hm. do 3 wp_step.
    destruct (is_simple_content_access w); cbn [negb]; wp_run;
      unfold Q in *; cbn [self heap]; autorewrite with frame; exact Hm. }
  destruct cu as [t|]; wp_step; apply Hloops; unfold Q;
    destruct (snap_reasons d) as [rs|]; simpl_store; cbn [default from_option id fmap option_fmap option_map];
    rewrite ?bool_decide_eq_true_2 by eauto;
    rewrite ?bool_decide_eq_false_2 by (intros [? ?]; done); done.
Qed.

(** ** The compliant-until instant *)

(** C1 (the code, not the claim): on a registered system whose snapshot has
    a non-null [compliantUntil] value [t], [load] returns and leaves in
    [compliant_until] the instant [parse_date t] itself; this is not the
    instant one second earlier and 24 hours later that the comment above the
    assignment, and the claim, announce. *)
Theorem compliant_until_is_parsed_value w s r d cp pcp ps ncp t :
  is_registered w = true -> load_status w = Some r -> heap s !! r = Some d ->
  compliantProducts d = Some cp ->
  partiallyCompliantProducts d = Some pcp ->
  partialStacks d = Some ps ->
  nonCompliantProducts d = Some ncp ->
  compliantUntil d = Some (Some t) ->
  ∃ s', load w s = (s', Ok tt)
        ∧ compliant_until (self s') = Some (parse_date w t)
        ∧ compliant_until (self s') ≠ Some (parse_date w t - 1 + 24 * 3600)%Z.
Proof.
  intros Hreg Hst Hh Hcp Hpcp Hps Hncp Hcu.
  destruct (load_with_snapshot w s r d cp pcp ps ncp (Some t))
    as (s' & Hrun & _ & _ & _ & _ & _ & _ & Huntil & _); try done.
  exists s'. split; [done|]. rewrite Huntil. split; [done|].
  simpl. intros [= H]. lia.
Qed.

Lemma compliant_until_is_parsed_value_witness :
  ∃ s', load quiet_world quiet_store = (s', Ok tt)
        ∧ compliant_until (self s') = Some 1893456000%Z
        ∧ compliant_until (self s') ≠ Some 1893542399%Z.
Proof.
  exact (compliant_until_is_parsed_value quiet_world quiet_store 0%nat
           quiet_snapshot ∅ ∅ ∅ [] "2030-01-01T00:00:00+0000"
           eq_refl eq_refl eq_refl eq_refl eq_refl eq_refl eq_refl eq_refl).
Defined.

(** ** The derived system status *)

(** C6: on a registered system whose status cache answers with a snapshot,
    [load] returns and the system status is the label of the server when
    the snapshot has a non-empty one; else INVALID when the non-compliant
    list is non-empty; else PARTIAL when the partially-compliant products,
    the partial stacks or the reasons are non-empty; else UNKNOWN. *)
Theorem system_status_derived w s r d cp pcp ps ncp cu :
  is_registered w = true -> load_status w = Some r -> heap s !! r = Some d ->
  compliantProducts d = Some cp ->
  partiallyCompliantProducts d = Some pcp ->
  partialStacks d = Some ps ->
  nonCompliantProducts d = Some ncp ->
  compliantUntil d = Some cu ->
  ∃ s', load w s = (s', Ok tt)
    ∧ (∀ label, snap_status d = Some label -> label ≠ "" ->
         get_system_status_id (self s') = label)
    ∧ (snap_status d = None ∨ snap_status d = Some "" ->
         (ncp ≠ [] -> get_system_status_id (self s') = INVALID)
         ∧ (ncp = [] ->
            pcp ≠ ∅ ∨ ps ≠ ∅ ∨ default [] (snap_reasons d) ≠ [] ->
            get_system_status_id (self s') = PARTIAL)
         ∧ (ncp = [] ->
            pcp = ∅ -> ps = ∅ -> default [] (snap_reasons d) = [] ->
            get_system_status_id (self s') = UNKNOWN)).
Proof.
  intros Hreg Hst Hh Hcp Hpcp Hps Hncp Hcu.
  destruct (load_with_snapshot w s r d cp pcp ps ncp cu)
    as (s' & Hrun & _ & _ & _ & _ & _ & Hsys & _); try done.
  exists s'. split; [done|]. unfold get_system_status_id. rewrite Hsys.
  unfold derived_status. split.
  - intros label Hl Hne.
    assert (str_bool (snap_status d) = true) as ->
      by (apply str_bool_true; eauto).
    by rewrite Hl.
  - intros Hnone.
    assert (str_bool (snap_status d) = false) as ->
      by (by destruct Hnone as [-> | ->]).
    split; [|split].
    + intros Hn. by apply list_bool_true in Hn as ->.
    + intros -> Hsome. cbn [list_bool length Nat.eqb negb].
      assert (dict_bool pcp || dict_bool ps
              || list_bool (default [] (snap_reasons d)) = true) as ->; [|done].
      rewrite !orb_true_iff, !dict_bool_true, list_bool_true. tauto.
    + intros -> -> -> ->. done.
Qed.

Lemma system_status_derived_witness :
  is_registered quiet_world = true
  ∧ heap quiet_store !! 0%nat = Some quiet_snapshot
  ∧ ∃ s', load quiet_world quiet_store = (s', Ok tt)
    ∧ (∀ label, snap_status quiet_snapshot = Some label -> label ≠ "" ->
         get_system_status_id (self s') = label)
    ∧ (snap_status quiet_snapshot = None ∨ snap_status quiet_snapshot = Some "" ->
         (@nil string ≠ [] -> get_system_status_id (self s') = INVALID)
         ∧ (@nil string = [] ->
            (∅ : gmap string (list CertJson)) ≠ ∅
            ∨ (∅ : gmap string (list CertJson)) ≠ ∅
            ∨ default [] (snap_reasons quiet_snapshot) ≠ [] ->
            get_system_status_id (self s') = PARTIAL)
         ∧ (@nil string = [] ->
            (∅ : gmap string (list CertJson)) = ∅ ->
            (∅ : gmap string (list CertJson)) = ∅ ->
            default [] (snap_reasons quiet_snapshot) = [] ->
            get_system_status_id (self s') = UNKNOWN)).
Proof.
  split; [reflexivity|]. split; [reflexivity|].
  exact (system_status_derived quiet_world quiet_store 0%nat
           quiet_snapshot ∅ ∅ ∅ [] (Some "2030-01-01T00:00:00+0000")
           eq_refl eq_refl eq_refl eq_refl eq_refl eq_refl eq_refl eq_refl).
Defined.

(** ** A load without a snapshot *)

(** C2 as stated fails: a manager that holds a valid product and the
    status "valid" from an earlier load does not keep them when the status
    cache has nothing to return. *)
Lemma load_without_snapshot_drops_prior_view :
  is_registered unreachable_world = true
  ∧ load_status unreachable_world = None
  ∧ ∃ s', load unreachable_world loaded_store = (s', Ok tt)
          ∧ ¬ buckets_and_status_unchanged (self loaded_store) (self s').
Proof.
  split; [reflexivity|]. split; [reflexivity|].
  eexists. split; [reflexivity|].
  intros (_ & _ & _ & _ & _ & Hsys & _). discriminate Hsys.
Qed.

(** C2, amended: on a registered system whose status cache returns no
    snapshot, [load] raises nothing, empties the five buckets and the list
    of valid certificates, sets the system status to UNKNOWN, and leaves
    [compliant_until] and the heap as they were; a further such call
    changes nothing any more. *)
Theorem load_without_snapshot_resets w s :
  is_registered w = true -> load_status w = None ->
  ∃ s', load w s = (s', Ok tt)
        ∧ valid_products (self s') = ∅
        ∧ partially_valid_products (self s') = ∅
        ∧ expired_products (self s') = ∅
        ∧ future_products (self s') = ∅
        ∧ unentitled_products (self s') = ∅
        ∧ system_status (self s') = UNKNOWN
        ∧ valid_entitlement_certs (self s') = []
        ∧ compliant_until (self s') = compliant_until (self s)
        ∧ heap s' = heap s
        ∧ load w s' = (s', Ok tt).
Proof.
  intros Hreg Hst. eexists. split.
  - unfold load, _parse_server_status, get_compliance_status, bind, modify_self,
      get_self, ret.
    rewrite Hreg. simpl_store. rewrite Hst. reflexivity.
  - repeat (split; [reflexivity|]).
    unfold load, _parse_server_status, get_compliance_status, bind, modify_self,
      get_self, ret.
    rewrite Hreg. simpl_store. rewrite Hst. reflexivity.
Qed.

Lemma load_without_snapshot_resets_witness :
  ∃ s', load unreachable_world loaded_store = (s', Ok tt)
        ∧ valid_products (self s') = ∅
        ∧ partially_valid_products (self s') = ∅
        ∧ expired_products (self s') = ∅
        ∧ future_products (self s') = ∅
        ∧ unentitled_products (self s') = ∅
        ∧ system_status (self s') = UNKNOWN
        ∧ valid_entitlement_certs (self s') = []
        ∧ compliant_until (self s') = compliant_until (self loaded_store)
        ∧ heap s' = heap loaded_store
        ∧ load unreachable_world s' = (s', Ok tt).
Proof.
  exact (load_without_snapshot_resets unreachable_world loaded_store
           eq_refl eq_refl).
Defined.

(** ** The status of a product *)

Lemma find_precedence (m : ComplianceManager) (pid : string) :
  first_bucket m pid = None <-> bucket_membership m pid = [false; false; false; false; false].
Proof.
  unfold first_bucket, precedence, bucket_membership. simpl.
  destruct (has_key (partially_valid_products m) pid),
    (has_key (valid_products m) pid), (has_key (future_products m) pid),
    (has_key (expired_products m) pid), (has_key (unentitled_products m) pid);
    simpl; split; congruence.
Qed.

(** C5: [get_status] is UNKNOWN on an unregistered system; on a registered
    one it is the label of the first bucket, in the order partially valid,
    valid, future, expired, unentitled, that has the product id, and it is
    UNKNOWN only when none of the five has it. *)
Theorem get_status_precedence (w : World) (m : ComplianceManager) (pid : string) :
  get_status w m pid
  = (if is_registered w then default UNKNOWN (first_bucket m pid) else UNKNOWN)
  ∧ (get_status w m pid = UNKNOWN
     <-> is_registered w = false
         ∨ bucket_membership m pid = [false; false; false; false; false]).
Proof.
  unfold get_status, first_bucket, precedence, bucket_membership. simpl.
  destruct (is_registered w); simpl; [|by split; [|split; [left|]]].
  destruct (has_key (partially_valid_products m) pid),
    (has_key (valid_products m) pid), (has_key (future_products m) pid),
    (has_key (expired_products m) pid), (has_key (unentitled_products m) pid);
    simpl; (split; [reflexivity|]); split;
    first [ discriminate | by right | by intros [|] ].
Qed.

(** ** The icon *)

Lemma in_warning_period_Exists (m : ComplianceManager) :
  in_warning_period m = true
  <-> Exists (fun c => is_expiring c = true) (valid_entitlement_certs m).
Proof.
  unfold in_warning_period.
  induction (valid_entitlement_certs m) as [|c l IH]; simpl.
  - split; [done | by intros ?%Exists_nil].
  - rewrite Exists_cons. destruct (is_expiring c); [tauto|].
    rewrite IH. split; [tauto | by intros [|]].
Qed.

(** C9: the icon is 1 when the system status is invalid; else 4 when it is
    partial; else 2 when some valid certificate is expiring; else 0, which
    is also the answer for the status UNKNOWN when no certificate is
    expiring. It is never 3 or 5. *)
Theorem get_status_for_icon_precedence (m : ComplianceManager) :
  get_status_for_icon m
  = (if decide (system_status m = INVALID) then 1
     else if decide (system_status m = PARTIAL) then 4
     else if decide (Exists (fun c => is_expiring c = true)
                            (valid_entitlement_certs m)) then 2
     else 0)%Z
  ∧ get_status_for_icon m ≠ 3%Z
  ∧ get_status_for_icon m ≠ 5%Z.
Proof.
  assert (get_status_for_icon m
    = (if decide (system_status m = INVALID) then 1
       else if decide (system_status m = PARTIAL) then 4
       else if decide (Exists (fun c => is_expiring c = true)
                              (valid_entitlement_certs m)) then 2
       else 0)%Z) as ->.
  { unfold get_status_for_icon, INVALID, PARTIAL.
    destruct (String.eqb_spec (system_status m) "invalid") as [->|Hi].
    { by rewrite decide_True. }
    rewrite (decide_False (P := system_status m = "invalid")) by done.
    destruct (String.eqb_spec (system_status m) "partial") as [->|Hp].
    { by rewrite decide_True. }
    rewrite (decide_False (P := system_status m = "partial")) by done.
    destruct (in_warning_period m) eqn:E.
    - apply in_warning_period_Exists in E. by rewrite decide_True.
    - rewrite decide_False; [done|].
      intros H%in_warning_period_Exists. congruence. }
  split; [done|]. by repeat case_decide.
Qed.

(** The quirk that the source notes: UNKNOWN without an expiring
    certificate shows the valid icon. *)
Corollary icon_of_unknown (m : ComplianceManager) :
  system_status m = UNKNOWN -> in_warning_period m = false ->
  get_status_for_icon m = RHSM_VALID.
Proof. unfold get_status_for_icon. by intros -> ->. Qed.

(** ** The buckets after a load *)

(** C3 as stated fails: a product that the server calls non-compliant and
    that has an entitlement beginning after now is both unentitled and
    future; here it has an ended entitlement as well and is in three
    buckets. *)
Lemma unentitled_product_is_also_future :
  ∃ s', load lapsed_world lapsed_store = (s', Ok tt)
        ∧ has_key (unentitled_products (self s')) "p1" = true
        ∧ has_key (future_products (self s')) "p1" = true
        ∧ has_key (expired_products (self s')) "p1" = true
        ∧ ¬ buckets_exclusive (self s').
Proof.
  eexists. split; [vm_compute; reflexivity|].
  split; [vm_compute; reflexivity|]. split; [vm_compute; reflexivity|].
  split; [vm_compute; reflexivity|].
  intros H. specialize (H "p1"). vm_compute in H. lia.
Qed.

Lemma foldl_inv {S X} (I : S -> Prop) (f : S -> X -> S) (l : list X) :
  (∀ a x, I a -> I (f a x)) -> ∀ a, I a -> I (foldl f a l).
Proof.
  intros Hf. induction l as [|x l IH]; intros a Ha; simpl; [done|].
  apply IH, Hf, Ha.
Qed.

Lemma has_key_true {V} (d : gmap string V) k : has_key d k = true <-> is_Some (d !! k).
Proof. unfold has_key. apply bool_decide_eq_true. Qed.

Lemma has_key_setdefault_append {V} (d : gmap string (list V)) k x k' :
  has_key (setdefault_append d k x) k' = true -> k' = k ∨ has_key d k' = true.
Proof.
  unfold setdefault_append. rewrite !has_key_true.
  destruct (decide (k = k')) as [->|Hne]; [by left|].
  rewrite lookup_insert_ne by done. by right.
Qed.

(** The scan files under future and expired only ids of [unknown]. *)
Lemma scan_product_keys w u c m p pid :
  has_key (future_products (scan_product w u c m p)) pid = true
  ∨ has_key (expired_products (scan_product w u c m p)) pid = true ->
  has_key (future_products m) pid = true
  ∨ has_key (expired_products m) pid = true
  ∨ pid ∈ u.*1.
Proof.
  unfold scan_product, in_list. case_bool_decide as Hin; [|tauto].
  repeat case_match; simpl_store; [| |tauto].
  - intros [[->|H1]%has_key_setdefault_append | H2]; tauto.
  - intros [H1 | [->|H2]%has_key_setdefault_append]; tauto.
Qed.

Lemma scan_keys w u l m pid :
  has_key (future_products (foldl (scan_cert w u) m l)) pid = true
  ∨ has_key (expired_products (foldl (scan_cert w u) m l)) pid = true ->
  has_key (future_products m) pid = true
  ∨ has_key (expired_products m) pid = true
  ∨ pid ∈ u.*1.
Proof.
  revert m. induction l as [|c l IH]; intros m; simpl; [tauto|].
  intros H%IH. revert H. unfold scan_cert.
  set (m1 := if is_valid c then _ else m).
  assert (future_products m1 = future_products m
          ∧ expired_products m1 = expired_products m) as [<- <-]
    by (subst m1; by case_match).
  generalize m1. clear. induction (products c) as [|p ps IHp]; intros m1; simpl; [tauto|].
  intros H%IHp. destruct H as [H|[H|H]]; [| |tauto].
  - eapply scan_product_keys. by left.
  - eapply scan_product_keys. by right.
Qed.

Lemma unknown_products_keys m pid :
  pid ∈ (unknown_products m).*1 ->
  has_key (valid_products m) pid = false
  ∧ has_key (partially_valid_products m) pid = false.
Proof.
  unfold unknown_products. intros ((k & pc) & -> & Hin)%list_elem_of_fmap.
  apply list_elem_of_In, filter_In in Hin as [_ Hf]. simpl in *.
  apply andb_true_iff in Hf as [H1 H2].
  by apply negb_true_iff in H1, H2.
Qed.

Lemma future_products_file w l m :
  future_products (foldl (file_unentitled w) m l) = future_products m.
Proof. apply foldl_frame. intros ? ?. unfold file_unentitled. by case_match. Qed.

Lemma expired_products_file w l m :
  expired_products (foldl (file_unentitled w) m l) = expired_products m.
Proof. apply foldl_frame. intros ? ?. unfold file_unentitled. by case_match. Qed.

#[local] Hint Rewrite future_products_file expired_products_file : frame.

Lemma has_key_empty {V} k : has_key (∅ : gmap string V) k = false.
Proof. unfold has_key. apply bool_decide_eq_false. rewrite lookup_empty. by intros [? ?]. Qed.

(** Symbolic execution that follows every branch. *)
Ltac wlp_run :=
  repeat first
    [ wlp_step
    | lazymatch goal with
      | |- wlp (derive_system_status _) _ _ =>
          apply wlp_derive_system_status; intros ?; simpl_store
      | |- wlp (if ?b then _ else _) _ _ => destruct b
      | |- wlp (match ?x with Some _ => _ | None => _ end) _ _ => destruct x
      end ].

(** C3, amended: after every completed [load], a product id that is in the
    expired or in the future bucket is neither in the valid nor in the
    partially valid bucket. *)
Theorem local_buckets_avoid_server_buckets w s s' pid :
  load w s = (s', Ok tt) ->
  has_key (expired_products (self s')) pid = true
  ∨ has_key (future_products (self s')) pid = true ->
  has_key (valid_products (self s')) pid = false
  ∧ has_key (partially_valid_products (self s')) pid = false.
Proof.
  intros Hrun. revert Hrun.
  set (Q := fun (_ : unit) (s' : Store) =>
    has_key (expired_products (self s')) pid = true
    ∨ has_key (future_products (self s')) pid = true ->
    has_key (valid_products (self s')) pid = false
    ∧ has_key (partially_valid_products (self s')) pid = false).
  enough (wlp (load w) Q s) as H by (intros Hrun; exact (wlp_elim _ _ _ _ _ H Hrun)).
  unfold load, _parse_server_status, get_compliance_status.
  wlp_run; unfold Q; cbn [self heap]; simpl_store;
    try (rewrite !has_key_empty; by intros [|]).
  all: intros Hk; apply or_comm, scan_keys in Hk.
  all: autorewrite with frame in Hk; simpl_store_in Hk.
  all: rewrite !has_key_empty in Hk; destruct Hk as [Hf|[He|Hin]]; try done.
  all: apply unknown_products_keys in Hin.
  all: autorewrite with frame in *; simpl_store_in Hin; simpl_store; exact Hin.
Qed.

Lemma local_buckets_avoid_server_buckets_witness :
  has_key (expired_products (self (load lapsed_world lapsed_store).1)) "p1" = true
  ∧ has_key (valid_products (self (load lapsed_world lapsed_store).1)) "p1" = false
  ∧ has_key (partially_valid_products (self (load lapsed_world lapsed_store).1)) "p1"
    = false.
Proof.
  split; [vm_compute; reflexivity|].
  apply (local_buckets_avoid_server_buckets lapsed_world lapsed_store
           (load lapsed_world lapsed_store).1 "p1").
  - vm_compute. reflexivity.
  - left. vm_compute. reflexivity.
Defined.

(** ** The closed form of [load] *)

Lemma foldl_comm {S X} (g : S -> S) (f : S -> X -> S) (l : list X) :
  (∀ a x, f (g a) x = g (f a x)) -> ∀ a, foldl f (g a) l = g (foldl f a l).
Proof.
  intros Hf. induction l as [|x l IH]; intros a; simpl; [done|].
  by rewrite Hf, IH.
Qed.

(** The loops do not look at the status attribute. *)
Lemma file_loop_set_status w st l m :
  foldl (file_unentitled w) (set_status st m) l
  = set_status st (foldl (file_unentitled w) m l).
Proof.
  apply foldl_comm. intros a x. unfold file_unentitled. by case_match.
Qed.

Lemma scan_loop_set_status w u st l m :
  foldl (scan_cert w u) (set_status st m) l
  = set_status st (foldl (scan_cert w u) m l).
Proof.
  apply foldl_comm. intros a c. unfold scan_cert.
  rewrite <- foldl_comm.
  - by case_match.
  - intros b p. unfold scan_product. by repeat case_match.
Qed.

Lemma set_nonCompliantProducts_id d ncp :
  nonCompliantProducts d = Some ncp -> set_nonCompliantProducts (Some ncp) d = d.
Proof. destruct d. simpl. by intros ->. Qed.

(** The loop over the installed products, on the store: only the list of
    the dict at [r] changes. *)
Lemma add_unreported_loop r m keys : ∀ h d ncp,
  h !! r = Some d -> nonCompliantProducts d = Some ncp ->
  foldl (add_unreported r) {| self := m; heap := h |} keys
  = {| self := m;
       heap := <[r := set_nonCompliantProducts
                        (Some (foldl (unreported_step m) ncp keys)) d]> h |}.
Proof.
  induction keys as [|pid keys IH]; intros h d ncp Hh Hncp; simpl.
  { rewrite set_nonCompliantProducts_id by done. by rewrite insert_id. }
  unfold add_unreported at 2, unreported_step at 2, unentitled_pids.
  cbn [self heap]. rewrite Hh, Hncp. cbn [default from_option id].
  destruct (negb (has_key (valid_products m) pid)
            && negb (has_key (partially_valid_products m) pid)
            && negb (in_list pid ncp)); [|by apply IH].
  unfold unentitled_pids_append. cbn [self heap].
  erewrite IH; cycle 1.
  { rewrite lookup_alter_eq, Hh. reflexivity. }
  { simpl. rewrite Hncp. reflexivity. }
  by rewrite insert_alter_eq.
Qed.

Lemma unknown_products_set_status st m :
  unknown_products (set_status st m) = unknown_products m.
Proof. reflexivity. Qed.

Lemma unreported_step_set_status st m :
  unreported_step (set_status st m) = unreported_step m.
Proof. reflexivity. Qed.

(** On a registered system whose status cache answers with the reference
    [r] to a dict [d] that has the required keys, [load] returns; it leaves
    the manager [loaded_self w d], with [r] as its status attribute, and the
    heap it found, but for the list of [d], which has become
    [reported_pids w d]. *)
Lemma load_closed_form w s r d :
  is_registered w = true -> load_status w = Some r -> heap s !! r = Some d ->
  complete d ->
  load w s
  = ({| self := set_status (Some r) (loaded_self w d);
        heap := <[r := set_nonCompliantProducts (Some (reported_pids w d)) d]>
                  (heap s) |}, Ok tt).
Proof.
  intros Hreg Hst Hh ([cp Hcp] & [pcp Hpcp] & [ps Hps] & [ncp Hncp] & [cu Hcu]).
  destruct d as [ocp opcp ops oncp lbl ocu rs]. simpl in Hcp, Hpcp, Hps, Hncp, Hcu.
  subst ocp opcp ops oncp ocu.
  set (d := {| compliantProducts := Some cp;
               partiallyCompliantProducts := Some pcp;
               partialStacks := Some ps;
               nonCompliantProducts := Some ncp;
               snap_status := lbl;
               compliantUntil := Some cu;
               snap_reasons := rs |}) in *.
  set (target := {| self := set_status (Some r) (loaded_self w d);
        heap := <[r := set_nonCompliantProducts (Some (reported_pids w d)) d]>
                  (heap s) |}).
  enough (wp (load w) (fun _ s' => s' = target) s) as H.
  { apply wp_elim in H as (s' & [] & H & ->). done. }
  run_load Hreg Hst.
  assert (∀ m, m = set_status (Some r) (snapshot_self w d) ->
    wp (do_ getitem r "nonCompliantProducts" nonCompliantProducts;
        do_ (if negb (is_simple_content_access w)
             then modify_store
                    (fun s => foldl (add_unreported r) s (installed_products (self s)).*1)
             else ret tt);
        do_ modify_store
              (fun s => {| self := foldl (file_unentitled w) (self s) (unentitled_pids r s);
                           heap := heap s |});
        do_ _scan_entitlement_certs w;
        log_products)
       (fun _ s' => s' = target) {| self := m; heap := heap s |}) as Hloops.
  { intros m ->. do 3 wp_step. unfold target, loaded_self, reported_pids.
    destruct (is_simple_content_access w); cbn [negb]; wp_run; cbn [self heap].
    - unfold unentitled_pids. cbn [heap]. rewrite Hh.
      cbn [nonCompliantProducts d default from_option id].
      rewrite !file_loop_set_status, unknown_products_set_status,
        scan_loop_set_status.
      f_equal. rewrite insert_id; [done|by rewrite Hh].
    - rewrite (add_unreported_loop r _ _ (heap s) d ncp Hh eq_refl).
      cbn [self heap]. unfold unentitled_pids. cbn [heap].
      rewrite lookup_insert_eq.
      cbn [nonCompliantProducts set_nonCompliantProducts d default from_option id].
      rewrite unreported_step_set_status.
      rewrite !file_loop_set_status, unknown_products_set_status,
        scan_loop_set_status.
      reflexivity. }
  destruct cu as [t|]; wp_step; apply Hloops; subst d; destruct rs; reflexivity.
Qed.

Lemma view_set_status st m : view (set_status st m) = view m.
Proof. reflexivity. Qed.

(** The view after a load with a snapshot is a function of the answers of
    the collaborators and of the content of the dict. *)
Lemma load_view w s r d :
  is_registered w = true -> load_status w = Some r -> heap s !! r = Some d ->
  complete d ->
  view (self (load w s).1) = view (loaded_self w d).
Proof.
  intros Hreg Hst Hh Hd. by rewrite (load_closed_form w s r d).
Qed.

(** Two loads in succession, with the same answers of the collaborators
    and the same instant, agree on the view when the status cache hands
    out, the second time, a dict with the content that the first dict had
    when it was received. *)
Lemma load_twice_fresh_snapshot w s r1 r2 d :
  is_registered w = true -> complete d ->
  heap s !! r1 = Some d ->
  heap (load (set_load_status (Some r1) w) s).1 !! r2 = Some d ->
  view (self (load (set_load_status (Some r2) w)
                   (load (set_load_status (Some r1) w) s).1).1)
  = view (self (load (set_load_status (Some r1) w) s).1).
Proof.
  intros Hreg Hd Hh1 Hh2.
  rewrite (load_view _ _ r2 d), (load_view _ _ r1 d) by done.
  reflexivity.
Qed.

(** The loop over the installed products only appends. *)
Lemma unreported_loop_mono m keys : ∀ l pid,
  pid ∈ l -> pid ∈ foldl (unreported_step m) l keys.
Proof.
  induction keys as [|k keys IH]; intros l pid Hin; simpl; [done|].
  apply IH. unfold unreported_step. case_match; [|done].
  apply elem_of_app. by left.
Qed.

Lemma unreported_loop_elem m keys : ∀ l pid,
  pid ∈ keys ->
  has_key (valid_products m) pid = false ->
  has_key (partially_valid_products m) pid = false ->
  pid ∈ foldl (unreported_step m) l keys.
Proof.
  induction keys as [|k keys IH]; intros l pid Hin Hv Hp; simpl.
  { by apply elem_of_nil in Hin. }
  apply elem_of_cons in Hin as [->|Hin]; [|by apply IH].
  apply unreported_loop_mono. unfold unreported_step, in_list.
  rewrite Hv, Hp. simpl. case_bool_decide; simpl; [done|].
  apply elem_of_app. right. by apply list_elem_of_singleton.
Qed.

(** Without simple content access, an installed product that the server
    does not mention is in the list of the snapshot after the load: the
    snapshot is not what was received. *)
Lemma load_writes_unreported_product w s r d cp pcp ncp pid :
  is_registered w = true -> load_status w = Some r -> heap s !! r = Some d ->
  complete d ->
  compliantProducts d = Some cp ->
  partiallyCompliantProducts d = Some pcp ->
  nonCompliantProducts d = Some ncp ->
  is_simple_content_access w = false ->
  pid ∈ (get_installed_products w).*1 ->
  cp !! pid = None -> pcp !! pid = None -> pid ∉ ncp ->
  ∃ l, nonCompliantProducts <$> heap (load w s).1 !! r = Some (Some l)
       ∧ pid ∈ l ∧ l ≠ ncp.
Proof.
  intros Hreg Hst Hh Hd Hcp Hpcp Hncp Hsca Hin Hv Hp Hnot.
  rewrite (load_closed_form w s r d) by done. cbn [fst heap].
  rewrite lookup_insert_eq. simpl. eexists. split; [reflexivity|].
  assert (pid ∈ reported_pids w d) as Hpid.
  { unfold reported_pids. rewrite Hsca.
    apply unreported_loop_elem; [done| |]; unfold has_key; simpl;
      apply bool_decide_eq_false; intros [x Hx].
    - rewrite Hcp in Hx. simpl in Hx. congruence.
    - rewrite Hpcp in Hx. simpl in Hx. congruence. }
  split; [done|]. intros E. by rewrite E in Hpid.
Qed.

(** A dict that lacks a key which the code subscripts makes [load] raise. *)
Example load_raises_KeyError :
  (load quiet_world {| self := blank; heap := {[ 0%nat := truncated_snapshot ]} |}).2
  = Raise (KeyError "compliantUntil").
Proof. vm_compute. reflexivity. Qed.

(** ** The snapshot after a load *)

(** C4 (the code, not the claim): [p1] is installed and the server does not
    mention it; the snapshot arrives with an empty [nonCompliantProducts]
    and holds ["p1"] when [load] has returned, because the append to
    [unentitled_pids] goes to the list of the snapshot. *)
Theorem load_appends_to_snapshot_list :
  nonCompliantProducts <$> heap quiet_store !! 0%nat = Some (Some [])
  ∧ ∃ s', load quiet_world quiet_store = (s', Ok tt)
          ∧ nonCompliantProducts <$> heap s' !! 0%nat = Some (Some ["p1"]).
Proof.
  split; [reflexivity|]. eexists. split; vm_compute; reflexivity.
Qed.

(** C7 (the code, not the claim): the status cache answers both calls with
    the same dict; the first [load] derives UNKNOWN and appends [p1] to the
    list of the dict, so the second derives INVALID. *)
Theorem second_load_differs_on_shared_snapshot :
  ∃ s1 s2, load quiet_world quiet_store = (s1, Ok tt)
           ∧ load quiet_world s1 = (s2, Ok tt)
           ∧ system_status (self s1) = UNKNOWN
           ∧ system_status (self s2) = INVALID
           ∧ view (self s1) ≠ view (self s2).
Proof.
  eexists. eexists.
  split; [vm_compute; reflexivity|]. split; [vm_compute; reflexivity|].
  split; [reflexivity|]. split; [reflexivity|].
  intros H. apply (f_equal view_system_status) in H. discriminate H.
Qed.

(** ** Notification *)

Lemma notify_loop_invoked body (l : list Callback) (s : CertSorter) :
  (notify_loop body l s).2 = l.
Proof.
  revert s. induction l as [|cb l IH]; intros s; simpl; [done|].
  specialize (IH (call body cb s)).
  destruct (notify_loop body l (call body cb s)) as [s' invoked].
  simpl in *. by rewrite IH.
Qed.

Section notify.
Variable body : Callback -> CertSorter -> list Action.
Variable iter : gset Callback -> list Callback.
(** Python iterates over a set in some order, each element once. *)
Hypothesis iter_elements : ∀ X, iter X ≡ₚ elements X.

Lemma notify_invoked (s : CertSorter) :
  NoDup (notify body iter s).2
  ∧ ∀ cb, cb ∈ (notify body iter s).2 <-> cb ∈ callbacks s.
Proof.
  unfold notify, copy. rewrite notify_loop_invoked. split.
  - rewrite iter_elements. apply NoDup_elements.
  - intros cb. rewrite iter_elements. apply elem_of_elements.
Qed.
End notify.

(** C8: a pass of [notify] invokes the callbacks that are registered when
    it starts, each once, and no other, whatever the callbacks add or
    remove meanwhile; so a callback removed during the pass is still invoked
    in it and is not invoked in the next pass, and a callback added during
    the pass is invoked in the next pass only. *)
Theorem notify_invokes_registered_once
  (body : Callback -> CertSorter -> list Action)
  (iter : gset Callback -> list Callback) (s : CertSorter) :
  (∀ X, iter X ≡ₚ elements X) ->
  let pass1 := notify body iter s in
  let pass2 := notify body iter (fst pass1) in
  (NoDup (snd pass1) ∧ ∀ cb, cb ∈ (snd pass1) <-> cb ∈ callbacks s)
  ∧ (NoDup (snd pass2) ∧ ∀ cb, cb ∈ (snd pass2) <-> cb ∈ callbacks (fst pass1))
  ∧ (∀ cb, cb ∈ callbacks s -> cb ∉ callbacks (fst pass1) ->
       (cb ∈ snd pass1) ∧ (cb ∉ snd pass2))
  ∧ (∀ cb, cb ∉ callbacks s -> cb ∈ callbacks (fst pass1) ->
       (cb ∉ snd pass1) ∧ (cb ∈ snd pass2)).
Proof.
  intros Hiter pass1 pass2.
  destruct (notify_invoked body iter Hiter s) as [Hnd1 Hin1].
  destruct (notify_invoked body iter Hiter (fst pass1)) as [Hnd2 Hin2].
  fold pass1 in Hnd1, Hin1. fold pass2 in Hnd2, Hin2.
  repeat split; try done; try apply Hin1; try apply Hin2; try done.
  - by rewrite Hin2.
  - by rewrite Hin1.
Qed.

Lemma notify_invokes_registered_once_witness :
  let pass1 := notify scenario_E_body ascending scenario_E in
  let pass2 := notify scenario_E_body ascending (fst pass1) in
  (NoDup (snd pass1) ∧ ∀ cb, cb ∈ (snd pass1) <-> cb ∈ callbacks scenario_E)
  ∧ (NoDup (snd pass2) ∧ ∀ cb, cb ∈ (snd pass2) <-> cb ∈ callbacks (fst pass1))
  ∧ (∀ cb, cb ∈ callbacks scenario_E -> cb ∉ callbacks (fst pass1) ->
       (cb ∈ snd pass1) ∧ (cb ∉ snd pass2))
  ∧ (∀ cb, cb ∉ callbacks scenario_E -> cb ∈ callbacks (fst pass1) ->
       (cb ∉ snd pass1) ∧ (cb ∈ snd pass2)).
Proof.
  apply (notify_invokes_registered_once scenario_E_body ascending scenario_E).
  intros X. apply merge_sort_Permutation.
Defined.

(** Scenario E, run: both observers are invoked in the first pass, the
    removed one is gone afterwards and the second pass invokes the other
    alone. *)
Example scenario_E_runs :
  (notify scenario_E_body ascending scenario_E).2 = [1%nat; 2%nat]
  ∧ callbacks (notify scenario_E_body ascending scenario_E).1 = {[ 1%nat ]}
  ∧ (notify scenario_E_body ascending
       (notify scenario_E_body ascending scenario_E).1).2 = [1%nat].
Proof.
  split; [|split].
  - vm_compute. reflexivity.
  - vm_compute. reflexivity.
  - vm_compute. reflexivity.
Qed.

(** An observer added during a pass waits for the next one. *)
Example added_observer_waits :
  (notify adding_body ascending {| callbacks := {[ 1%nat ]} |}).2 = [1%nat]
  ∧ (notify adding_body ascending
       (notify adding_body ascending {| callbacks := {[ 1%nat ]} |}).1).2
     = [1%nat; 3%nat].
Proof.
  split.
  - vm_compute. reflexivity.
  - vm_compute. reflexivity.
Qed.

Lemma remove_callback_reports (cb : Callback) (s : CertSorter) :
  (remove_callback cb s).2 = bool_decide (cb ∈ callbacks s)
  ∧ cb ∉ callbacks (remove_callback cb s).1.
Proof.
  unfold remove_callback.
  destruct (decide (cb ∈ callbacks s)) as [Hin|Hout].
  - rewrite !bool_decide_eq_true_2 by done. simpl. split; [done|].
    intros [_ Hn]%elem_of_difference. apply Hn. by apply elem_of_singleton.
  - rewrite !bool_decide_eq_false_2 by done. done.
Qed.

(** ** Stacking groups *)

Section stacking.
Variables key name_of : EntitlementCertificate -> option string.

Lemma sorter_step_unkeyed s c :
  nonempty_key key c = None ->
  sorter_step key name_of s c
  = {| groups := groups s ++ [ {| name := Some ""; entitlements := [c] |} ];
       stacking_groups := stacking_groups s |}.
Proof.
  unfold nonempty_key, sorter_step.
  destruct (str_bool (key c)) eqn:E; [|done].
  intros Hk. rewrite Hk in E. done.
Qed.

Lemma sorter_step_keyed s c k :
  nonempty_key key c = Some k ->
  sorter_step key name_of s c
  = match stacking_groups s !! k with
    | None =>
        {| groups := groups s ++ [ {| name := name_of c; entitlements := [c] |} ];
           stacking_groups := <[k := length (groups s)]> (stacking_groups s) |}
    | Some i =>
        {| groups := alter (add_entitlement_cert c) i (groups s);
           stacking_groups := stacking_groups s |}
    end.
Proof.
  unfold nonempty_key, sorter_step.
  destruct (str_bool (key c)) eqn:E; [|done].
  intros ->. done.
Qed.

Lemma join_step_length sg gs d : length (join_step key sg gs d) = length gs.
Proof.
  unfold join_step. repeat case_match; try done. apply length_alter.
Qed.

Lemma join_loop_length sg l gs :
  length (foldl (join_step key sg) gs l) = length gs.
Proof.
  revert gs. induction l as [|d l IH]; intros gs; simpl; [done|].
  by rewrite IH, join_step_length.
Qed.

(** A group that the dict does not point to is left alone. *)
Lemma join_loop_app sg l gs g :
  (∀ k i, sg !! k = Some i -> i < length gs) ->
  foldl (join_step key sg) (gs ++ [g]) l
  = foldl (join_step key sg) gs l ++ [g].
Proof.
  revert gs. induction l as [|d l IH]; intros gs Hlt; simpl; [done|].
  assert (join_step key sg (gs ++ [g]) d = join_step key sg gs d ++ [g]) as ->.
  { unfold join_step. destruct (nonempty_key key d) as [k|]; [|done].
    destruct (sg !! k) as [i|] eqn:E; [|done].
    apply alter_app_l. eauto. }
  apply IH. intros k i Hk. rewrite join_step_length. eauto.
Qed.

(** The group of a key that has just been entered collects the later
    certificates of that key, in order. *)
Lemma join_loop_new sg k l gs g :
  sg !! k = None ->
  (∀ k' i, sg !! k' = Some i -> i < length gs) ->
  foldl (join_step key (<[k := length gs]> sg)) (gs ++ [g]) l
  = foldl (join_step key sg) gs l
    ++ [ {| name := name g;
            entitlements :=
              entitlements g
              ++ filter (fun d => nonempty_key key d = Some k) l |} ].
Proof.
  intros Hk. revert gs g. induction l as [|d l IH]; intros gs g Hlt; simpl.
  { rewrite app_nil_r. by destruct g. }
  rewrite filter_cons.
  destruct (decide (nonempty_key key d = Some k)) as [Hd|Hd].
  - assert (join_step key (<[k := length gs]> sg) (gs ++ [g]) d
            = gs ++ [add_entitlement_cert d g]) as ->.
    { unfold join_step. rewrite Hd, lookup_insert_eq.
      rewrite alter_app_r_alt by done.
      by rewrite Nat.sub_diag. }
    assert (join_step key sg gs d = gs) as ->
      by (unfold join_step; by rewrite Hd, Hk).
    rewrite IH by done. simpl. by rewrite <- app_assoc.
  - assert (join_step key (<[k := length gs]> sg) (gs ++ [g]) d
            = join_step key sg gs d ++ [g]) as ->.
    { unfold join_step. destruct (nonempty_key key d) as [k'|]; [|done].
      rewrite lookup_insert_ne by congruence.
      destruct (sg !! k') as [i|] eqn:E; [|done].
      apply alter_app_l. eauto. }
    rewrite <- (join_step_length sg gs d).
    apply IH. intros k' i Hk'. rewrite join_step_length. eauto.
Qed.

(** The loop of [__init__], from any state whose dict has the keys [seen]
    and points into the list of groups. *)
Lemma sorter_loop l : ∀ s seen,
  (∀ k, k ∈ seen <-> is_Some (stacking_groups s !! k)) ->
  (∀ k i, stacking_groups s !! k = Some i -> i < length (groups s)) ->
  groups (foldl (sorter_step key name_of) s l)
  = foldl (join_step key (stacking_groups s)) (groups s) l
    ++ assemble (nonempty_key key) name_of seen l.
Proof.
  induction l as [|c l IH]; intros s seen Hseen Hlt; simpl.
  { by rewrite app_nil_r. }
  destruct (nonempty_key key c) as [k|] eqn:Hc.
  - rewrite (sorter_step_keyed _ _ _ Hc).
    unfold join_step at 2. rewrite Hc.
    destruct (stacking_groups s !! k) as [i|] eqn:Hk.
    + rewrite bool_decide_eq_true_2 by (apply Hseen; eauto).
      rewrite (IH _ seen); simpl; [done|done|].
      intros k' i' Hk'. rewrite length_alter. eauto.
    + rewrite bool_decide_eq_false_2
        by (rewrite Hseen, Hk; by intros [? ?]).
      rewrite (IH _ (k :: seen)); simpl.
      * rewrite join_loop_new by done. by rewrite <- app_assoc.
      * intros k'. rewrite elem_of_cons, Hseen.
        destruct (decide (k' = k)) as [->|Hne].
        -- rewrite lookup_insert_eq. split; eauto.
        -- rewrite lookup_insert_ne by done. split; [by intros [|]|eauto].
      * intros k' i'. rewrite length_app. simpl.
        destruct (decide (k' = k)) as [->|Hne].
        -- rewrite lookup_insert_eq. intros [= <-]. lia.
        -- rewrite lookup_insert_ne by done. intros H%Hlt. lia.
  - rewrite (sorter_step_unkeyed _ _ Hc).
    unfold join_step at 2. rewrite Hc.
    rewrite (IH _ seen); simpl.
    + rewrite join_loop_app by done. by rewrite <- app_assoc.
    + done.
    + intros k i H%Hlt. rewrite length_app. simpl. lia.
Qed.
End stacking.

(** The groups of the sorter, by the specification's recursion over the
    input with an empty key counted as absent. *)
Lemma sorter_groups (key name_of : EntitlementCertificate -> option string)
  (entitlements : list EntitlementCertificate) :
  groups (new_StackingGroupSorter key name_of entitlements)
  = assemble (nonempty_key key) name_of [] entitlements.
Proof.
  unfold new_StackingGroupSorter.
  rewrite (sorter_loop key name_of entitlements _ []); simpl.
  - assert (∀ gs, foldl (join_step key ∅) gs entitlements = gs) as ->; [|done].
    induction entitlements as [|c l IH]; intros gs; simpl; [done|].
    rewrite IH. unfold join_step.
    destruct (nonempty_key key c); [|done]. by rewrite lookup_empty.
  - intros k. rewrite lookup_empty. split; [by intros ?%elem_of_nil | by intros [? ?]].
  - intros k i. by rewrite lookup_empty.
Qed.

(** C10 as stated fails: two certificates whose stacking key is the empty
    string do not share a group; each one becomes a group of its own with
    the default name, as if it had no key. *)
Lemma empty_stacking_key_is_not_grouped :
  cert_get_stacking_id (empty_key_cert 1) = Some ""
  ∧ groups (new_StackingGroupSorter cert_get_stacking_id cert_get_identity_name
              [empty_key_cert 1; empty_key_cert 2])
    = [ {| name := Some ""; entitlements := [empty_key_cert 1] |};
        {| name := Some ""; entitlements := [empty_key_cert 2] |} ]
  ∧ assemble cert_get_stacking_id cert_get_identity_name []
      [empty_key_cert 1; empty_key_cert 2]
    = [ {| name := Some "Stack";
           entitlements := [empty_key_cert 1; empty_key_cert 2] |} ]
  ∧ groups (new_StackingGroupSorter cert_get_stacking_id cert_get_identity_name
              [empty_key_cert 1; empty_key_cert 2])
    ≠ assemble cert_get_stacking_id cert_get_identity_name []
        [empty_key_cert 1; empty_key_cert 2].
Proof.
  split; [reflexivity|]. split; [reflexivity|]. split; [reflexivity|].
  intros H. vm_compute in H. discriminate H.
Qed.

(** C10, amended: for every list of certificates and every pair of
    extraction functions, the groups of a [StackingGroupSorter] are those of
    the specification when an empty stacking key counts as absent: a
    certificate without a key, or with an empty one, is a group of its own;
    a certificate with a key met before joins the group of that key; a
    certificate with a new key starts a group named from it; the groups are
    in first-seen order and the members in the order of the input. *)
Theorem stacking_groups_assembled
  (key name_of : EntitlementCertificate -> option string)
  (entitlements : list EntitlementCertificate) :
  groups (new_StackingGroupSorter key name_of entitlements)
  = assemble (nonempty_key key) name_of [] entitlements.
Proof. apply sorter_groups. Qed.

(** When no key is empty, the groups are those of the specification as it
    is worded. *)
Corollary stacking_groups_nonempty_keys
  (key name_of : EntitlementCertificate -> option string)
  (entitlements : list EntitlementCertificate) :
  (∀ c, key c ≠ Some "") ->
  groups (new_StackingGroupSorter key name_of entitlements)
  = assemble key name_of [] entitlements.
Proof.
  intros Hne. rewrite sorter_groups.
  assert (∀ c, nonempty_key key c = key c) as Hk.
  { intros c. unfold nonempty_key. specialize (Hne c).
    destruct (key c) as [[|a v]|]; done. }
  generalize (@nil string).
  induction entitlements as [|c l IH]; intros seen; simpl; [done|].
  rewrite Hk. destruct (key c) as [k|]; [|by rewrite IH].
  rewrite !IH.
  rewrite (list_filter_iff (fun d => nonempty_key key d = Some k)
             (fun d => key d = Some k)); [done|].
  intros d. by rewrite Hk.
Qed.

(** * Further properties of the code *)

(** ** An unregistered system *)

(** X1: on an unregistered system [load] raises nothing, empties the five
    buckets and the valid certificates, sets the status UNKNOWN, and does
    not ask the status cache: the status attribute and the heap are as
    before. Every product then has the status UNKNOWN. *)
Theorem load_unregistered w s :
  is_registered w = false ->
  ∃ s', load w s = (s', Ok tt)
        ∧ valid_products (self s') = ∅
        ∧ partially_valid_products (self s') = ∅
        ∧ expired_products (self s') = ∅
        ∧ future_products (self s') = ∅
        ∧ unentitled_products (self s') = ∅
        ∧ valid_entitlement_certs (self s') = []
        ∧ get_system_status_id (self s') = UNKNOWN
        ∧ status (self s') = status (self s)
        ∧ heap s' = heap s
        ∧ ∀ pid, get_status w (self s') pid = UNKNOWN.
Proof.
  intros Hreg. eexists. split.
  - unfold load, _parse_server_status, bind, modify_self, ret.
    rewrite Hreg. simpl_store. reflexivity.
  - repeat (split; [reflexivity|]).
    intros pid. unfold get_status. by rewrite Hreg.
Qed.

Lemma load_unregistered_witness :
  ∃ s', load (set_identity_is_valid false quiet_world) loaded_store = (s', Ok tt)
        ∧ valid_products (self s') = ∅
        ∧ partially_valid_products (self s') = ∅
        ∧ expired_products (self s') = ∅
        ∧ future_products (self s') = ∅
        ∧ unentitled_products (self s') = ∅
        ∧ valid_entitlement_certs (self s') = []
        ∧ get_system_status_id (self s') = UNKNOWN
        ∧ status (self s') = status (self loaded_store)
        ∧ heap s' = heap loaded_store
        ∧ ∀ pid, get_status (set_identity_is_valid false quiet_world) (self s') pid
                 = UNKNOWN.
Proof.
  exact (load_unregistered (set_identity_is_valid false quiet_world)
           loaded_store eq_refl).
Defined.

(** ** Missing keys *)

Section wpx_rules.
Context {A B : Type}.
Implicit Types (s : Store) (r : ref).

Lemma wpx_elim (m : M A) (Q : A -> Store -> Prop) (E : exn -> Store -> Prop) s :
  wpx m Q E s ->
  match (m s).2 with Ok a => Q a (m s).1 | Raise e => E e (m s).1 end.
Proof. unfold wpx. by destruct (m s) as [s' [a|e]]. Qed.

Lemma wpx_ret (a : A) (Q : A -> Store -> Prop) E s : Q a s -> wpx (ret a) Q E s.
Proof. exact (fun H => H). Qed.

Lemma wpx_bind (m : M A) (k : A -> M B) (Q : B -> Store -> Prop) E s :
  wpx m (fun a s' => wpx (k a) Q E s') E s -> wpx (bind m k) Q E s.
Proof.
  unfold wpx, bind. destruct (m s) as [s' [a|e]]; exact (fun H => H).
Qed.

Lemma wpx_getitem r key (proj : Snapshot -> option A) d
  (Q : A -> Store -> Prop) E s :
  heap s !! r = Some d ->
  match proj d with Some v => Q v s | None => E (KeyError key) s end ->
  wpx (getitem r key proj) Q E s.
Proof. unfold wpx, getitem. intros ->. by destruct (proj d). Qed.

Lemma wpx_contains r (proj : Snapshot -> option A) d
  (Q : bool -> Store -> Prop) E s :
  heap s !! r = Some d -> Q (bool_decide (is_Some (proj d))) s ->
  wpx (contains r proj) Q E s.
Proof. unfold wpx, contains. intros ->. exact (fun H => H). Qed.
End wpx_rules.

Lemma wpx_modify_self f (Q : unit -> Store -> Prop) E s :
  Q tt {| self := f (self s); heap := heap s |} -> wpx (modify_self f) Q E s.
Proof. exact (fun H => H). Qed.

Lemma wpx_modify_store f (Q : unit -> Store -> Prop) E s :
  Q tt (f s) -> wpx (modify_store f) Q E s.
Proof. exact (fun H => H). Qed.

Lemma wpx_get_self (Q : ComplianceManager -> Store -> Prop) E s :
  Q (self s) s -> wpx get_self Q E s.
Proof. exact (fun H => H). Qed.

(** One step; a subscript splits on the presence of the key. *)
Ltac wpx_step :=
  lazymatch goal with
  | |- wpx (bind _ _) _ _ _ => apply wpx_bind
  | |- wpx (ret _) _ _ _ => apply wpx_ret; simpl_store
  | |- wpx (modify_self _) _ _ _ => apply wpx_modify_self; simpl_store
  | |- wpx (modify_store _) _ _ _ => apply wpx_modify_store
  | |- wpx get_self _ _ _ => apply wpx_get_self; simpl_store
  | |- wpx (getitem _ _ ?proj) _ _ _ =>
      eapply wpx_getitem; [cbn [heap]; eassumption|];
      let E := fresh "Hkey" in
      lazymatch goal with
      | |- match proj ?d with _ => _ end => destruct (proj d) eqn:E
      end
  | |- wpx (contains _ _) _ _ _ =>
      eapply wpx_contains; [cbn [heap]; eassumption | ]
  | |- wpx log_products _ _ _ => apply wpx_ret
  | |- wpx (_scan_entitlement_certs _) _ _ _ => apply wpx_modify_self
  | |- wpx (if ?b then _ else _) _ _ _ =>
      let E := fresh "Hif" in destruct b eqn:E
  | |- wpx (match ?x with Some _ => _ | None => _ end) _ _ _ => destruct x
  end.

Lemma load_outcome w s r d :
  is_registered w = true -> load_status w = Some r -> heap s !! r = Some d ->
  wpx (load w) (fun _ _ => complete d)
      (fun e _ => ∃ k, e = KeyError k ∧ missing_key d k) s.
Proof.
  intros Hreg Hst Hh.
  unfold load, _parse_server_status, get_compliance_status, derive_system_status.
  rewrite Hreg. cbn [negb]. do 27 wpx_step. rewrite Hst.
  repeat wpx_step.
  all: try (unfold complete;
            repeat match goal with H : _ = Some _ |- _ => rewrite H; clear H end;
            by eauto 10).
  all: try (eexists; split; [reflexivity|]; unfold missing_key; by eauto 10).
  all: exfalso;
    repeat match goal with
    | H : bool_decide _ = true |- _ => apply bool_decide_eq_true in H
    | H : is_Some _ |- _ => destruct H
    end; congruence.
Qed.

(** X2: on a registered system whose status cache answers with a dict,
    [load] returns exactly when the dict has the five keys that the code
    subscripts; otherwise it raises a [KeyError] that names one of the
    missing keys. *)
Theorem load_returns_iff_complete w s r d :
  is_registered w = true -> load_status w = Some r -> heap s !! r = Some d ->
  ((load w s).2 = Ok tt <-> complete d)
  ∧ (∀ e, (load w s).2 = Raise e -> ∃ k, e = KeyError k ∧ missing_key d k).
Proof.
  intros Hreg Hst Hh.
  pose proof (wpx_elim _ _ _ _ (load_outcome w s r d Hreg Hst Hh)) as H.
  split; [split|].
  - intros E. by rewrite E in H.
  - intros Hd. by rewrite (load_closed_form w s r d).
  - intros e E. by rewrite E in H.
Qed.

Lemma load_returns_iff_complete_witness :
  ((load quiet_world {| self := blank; heap := {[ 0%nat := truncated_snapshot ]} |}).2
   = Ok tt <-> complete truncated_snapshot)
  ∧ (∀ e, (load quiet_world
             {| self := blank; heap := {[ 0%nat := truncated_snapshot ]} |}).2
          = Raise e -> ∃ k, e = KeyError k ∧ missing_key truncated_snapshot k).
Proof.
  exact (load_returns_iff_complete quiet_world
           {| self := blank; heap := {[ 0%nat := truncated_snapshot ]} |}
           0%nat truncated_snapshot eq_refl eq_refl eq_refl).
Defined.

(** ** The valid certificates *)

Lemma scan_cert_valid_certs w u m c :
  valid_entitlement_certs (scan_cert w u m c)
  = valid_entitlement_certs m ++ (if is_valid c then [c] else []).
Proof.
  unfold scan_cert. rewrite foldl_frame.
  - destruct (is_valid c); simpl_store; [done|by rewrite app_nil_r].
  - intros a p. unfold scan_product. by repeat case_match.
Qed.

Lemma scan_loop_valid_certs w u l : ∀ m,
  valid_entitlement_certs (foldl (scan_cert w u) m l)
  = valid_entitlement_certs m ++ List.filter is_valid l.
Proof.
  induction l as [|c l IH]; intros m; simpl.
  { by rewrite app_nil_r. }
  rewrite IH, scan_cert_valid_certs, <- app_assoc. by destruct (is_valid c).
Qed.

Lemma valid_entitlement_certs_file w l m :
  valid_entitlement_certs (foldl (file_unentitled w) m l)
  = valid_entitlement_certs m.
Proof. apply foldl_frame. intros ? ?. unfold file_unentitled. by case_match. Qed.

Lemma in_warning_period_loop_true l :
  in_warning_period_loop l = true <-> ∃ c, c ∈ l ∧ is_expiring c = true.
Proof.
  induction l as [|c l IH]; simpl.
  - split; [done|]. intros (c & Hc & _). by apply elem_of_nil in Hc.
  - destruct (is_expiring c) eqn:E.
    + split; [|done]. intros _. exists c. split; [apply elem_of_cons; by left|done].
    + rewrite IH. split.
      * intros (c' & Hc' & He). exists c'. split; [apply elem_of_cons; by right|done].
      * intros (c' & [->|Hc']%elem_of_cons & He); [congruence|eauto].
Qed.

(** X3: after a load with a snapshot, the valid certificates are the
    certificates of the entitlement directory that answer [is_valid], in the
    order of the directory; so the system is in its warning period exactly
    when one of those is expiring. *)
Theorem valid_certs_after_load w s r d :
  is_registered w = true -> load_status w = Some r -> heap s !! r = Some d ->
  complete d ->
  ∃ s', load w s = (s', Ok tt)
        ∧ valid_entitlement_certs (self s')
          = List.filter is_valid (entitlement_dir_list w)
        ∧ (in_warning_period (self s') = true
           <-> ∃ c, c ∈ entitlement_dir_list w
                    ∧ is_valid c = true ∧ is_expiring c = true).
Proof.
  intros Hreg Hst Hh Hd. eexists. split; [by apply load_closed_form|].
  cbn [self]. simpl_store. unfold loaded_self.
  rewrite scan_loop_valid_certs, valid_entitlement_certs_file. simpl.
  split; [done|].
  unfold in_warning_period. simpl_store.
  rewrite scan_loop_valid_certs, valid_entitlement_certs_file. simpl.
  rewrite in_warning_period_loop_true. split.
  - intros (c & Hc & He). apply list_elem_of_In, filter_In in Hc as [Hc Hv].
    exists c. by rewrite list_elem_of_In.
  - intros (c & Hc & Hv & He). exists c. split; [|done].
    apply list_elem_of_In, filter_In. by rewrite <- list_elem_of_In.
Qed.

Lemma valid_certs_after_load_witness :
  ∃ s', load lapsed_world lapsed_store = (s', Ok tt)
        ∧ valid_entitlement_certs (self s')
          = List.filter is_valid (entitlement_dir_list lapsed_world)
        ∧ (in_warning_period (self s') = true
           <-> ∃ c, c ∈ entitlement_dir_list lapsed_world
                    ∧ is_valid c = true ∧ is_expiring c = true).
Proof.
  apply (valid_certs_after_load lapsed_world lapsed_store 0%nat invalid_snapshot);
    try reflexivity.
  unfold complete. simpl. eauto 10.
Defined.

(** ** The view takes the dicts of the server *)

(** X4: after a load with a snapshot, the valid and partially valid
    buckets and the partial stacks are the dicts of the snapshot; reasons
    are supported exactly when the snapshot has the key [reasons], and the
    status attribute holds the snapshot. *)
Theorem server_dicts_after_load w s r d cp pcp ps :
  is_registered w = true -> load_status w = Some r -> heap s !! r = Some d ->
  complete d ->
  compliantProducts d = Some cp ->
  partiallyCompliantProducts d = Some pcp ->
  partialStacks d = Some ps ->
  ∃ s', load w s = (s', Ok tt)
        ∧ valid_products (self s') = cp
        ∧ partially_valid_products (self s') = pcp
        ∧ partial_stacks (self s') = ps
        ∧ are_reasons_supported (self s') = bool_decide (is_Some (snap_reasons d))
        ∧ reasons_list (reasons (self s')) = default [] (snap_reasons d)
        ∧ status (self s') = Some r.
Proof.
  intros Hreg Hst Hh Hd Hcp Hpcp Hps.
  destruct Hd as (_ & _ & _ & [ncp Hncp] & [cu Hcu]).
  destruct (load_with_snapshot w s r d cp pcp ps ncp cu)
    as (s' & Hrun & H1 & H2 & H3 & H4 & H5 & _ & _ & H8); try done.
  exists s'. unfold are_reasons_supported. by repeat split.
Qed.

Lemma server_dicts_after_load_witness :
  ∃ s', load lapsed_world lapsed_store = (s', Ok tt)
        ∧ valid_products (self s') = ∅
        ∧ partially_valid_products (self s') = ∅
        ∧ partial_stacks (self s') = ∅
        ∧ are_reasons_supported (self s')
          = bool_decide (is_Some (snap_reasons invalid_snapshot))
        ∧ reasons_list (reasons (self s')) = default [] (snap_reasons invalid_snapshot)
        ∧ status (self s') = Some 0%nat.
Proof.
  apply (server_dicts_after_load lapsed_world lapsed_store 0%nat invalid_snapshot);
    try reflexivity.
  unfold complete. simpl. eauto 10.
Defined.

(** ** Validity of the system *)

Lemma derived_status_cases label ncp pcp ps rs :
  (str_bool label = true ∧ derived_status label ncp pcp ps rs = default "" label)
  ∨ (str_bool label = false
     ∧ (derived_status label ncp pcp ps rs = INVALID
        ∨ derived_status label ncp pcp ps rs = PARTIAL
        ∨ derived_status label ncp pcp ps rs = UNKNOWN)).
Proof.
  unfold derived_status. destruct (str_bool label); [by left|right].
  split; [done|]. repeat case_match; auto.
Qed.

(** X5: after a load with a snapshot, [is_valid] holds exactly when the
    server itself labelled the system "valid" or "disabled": no status
    that the client derives counts as valid. *)
Theorem is_valid_only_by_server_label w s r d :
  is_registered w = true -> load_status w = Some r -> heap s !! r = Some d ->
  complete d ->
  ∃ s', load w s = (s', Ok tt)
        ∧ (Manager.is_valid (self s') = true
           <-> snap_status d = Some VALID ∨ snap_status d = Some DISABLED).
Proof.
  intros Hreg Hst Hh Hd.
  destruct Hd as ([cp Hcp] & [pcp Hpcp] & [ps Hps] & [ncp Hncp] & [cu Hcu]).
  destruct (load_with_snapshot w s r d cp pcp ps ncp cu)
    as (s' & Hrun & _ & _ & _ & _ & _ & Hsys & _); try done.
  exists s'. split; [done|]. unfold Manager.is_valid. rewrite Hsys.
  rewrite orb_true_iff, !String.eqb_eq.
  destruct (derived_status_cases (snap_status d) ncp pcp ps
              (default [] (snap_reasons d))) as [[Hb Hl]|[Hb H]].
  - rewrite Hl. apply str_bool_true in Hb as (v & -> & _). simpl.
    split; (intros [?|?]; [left|right]; congruence).
  - split.
    + destruct H as [-> | [-> | ->]]; by intros [?|?].
    + intros [E|E]; rewrite E in Hb; done.
Qed.

Lemma is_valid_only_by_server_label_witness :
  ∃ s', load lapsed_world lapsed_store = (s', Ok tt)
        ∧ (Manager.is_valid (self s') = true
           <-> snap_status invalid_snapshot = Some VALID
               ∨ snap_status invalid_snapshot = Some DISABLED).
Proof.
  apply (is_valid_only_by_server_label lapsed_world lapsed_store 0%nat
           invalid_snapshot); try reflexivity.
  unfold complete. simpl. eauto 10.
Defined.

(** ** The label of the system status *)

(** X6: [get_system_status] never fails; it is the translation of
    "Current", "Insufficient", "Invalid" or "Disabled" for the four statuses
    of that meaning, and the translation of "Unknown" for every other
    status, also for a label of the server that the client does not know. *)
Theorem get_system_status_total (gettext : string -> string)
  (m : ComplianceManager) :
  get_system_status gettext m
  = Some (if decide (system_status m = VALID) then gettext "Current"
          else if decide (system_status m = PARTIAL) then gettext "Insufficient"
          else if decide (system_status m = INVALID) then gettext "Invalid"
          else if decide (system_status m = DISABLED) then gettext "Disabled"
          else gettext "Unknown").
Proof.
  unfold get_system_status, get_status_map.
  rewrite lookup_insert_eq. f_equal.
  assert (∀ k, (<[UNKNOWN:=gettext "Unknown"]>
         (<[DISABLED:=gettext "Disabled"]>
            (<[INVALID:=gettext "Invalid"]>
               (<[PARTIAL:=gettext "Insufficient"]>
                  (<[VALID:=gettext "Current"]> (∅ : gmap string string))))) !! k)
      = if decide (k = VALID) then Some (gettext "Current")
        else if decide (k = PARTIAL) then Some (gettext "Insufficient")
        else if decide (k = INVALID) then Some (gettext "Invalid")
        else if decide (k = DISABLED) then Some (gettext "Disabled")
        else if decide (k = UNKNOWN) then Some (gettext "Unknown")
        else None) as ->.
  { intros k. rewrite !lookup_insert, lookup_empty.
    repeat case_decide; subst; try done. }
  by repeat case_decide.
Qed.

(** ** The unentitled products *)

Lemma unreported_loop_elem_iff m keys : ∀ l pid,
  pid ∈ foldl (unreported_step m) l keys
  <-> pid ∈ l
      ∨ (pid ∈ keys
         ∧ has_key (valid_products m) pid = false
         ∧ has_key (partially_valid_products m) pid = false).
Proof.
  induction keys as [|k keys IH]; intros l pid; simpl.
  { split; [by left|]. intros [H|[H _]]; [done|]. by apply elem_of_nil in H. }
  rewrite IH, elem_of_cons. unfold unreported_step, in_list.
  destruct (has_key (valid_products m) k) eqn:Hv; simpl.
  { split; [tauto|]. intros [H|[[->|H] [H1 H2]]]; [tauto|congruence|tauto]. }
  destruct (has_key (partially_valid_products m) k) eqn:Hp; simpl.
  { split; [tauto|]. intros [H|[[->|H] [H1 H2]]]; [tauto|congruence|tauto]. }
  destruct (bool_decide (k ∈ l)) eqn:Hin; simpl.
  - apply bool_decide_eq_true in Hin.
    split; [tauto|]. intros [H|[[->|H] [H1 H2]]]; tauto.
  - rewrite elem_of_app, list_elem_of_singleton. split.
    + intros [[H| ->]|H]; tauto.
    + intros [H|[[->|H] [H1 H2]]]; tauto.
Qed.

Lemma has_key_false {V} (d : gmap string V) k : has_key d k = false <-> d !! k = None.
Proof.
  unfold has_key. rewrite bool_decide_eq_false, <- eq_None_not_Some. done.
Qed.

(** The ids behind [unentitled_pids] after the loop over the installed
    products: those of the server and, without simple content access, the
    installed ones that neither dict of the server has. *)
Lemma reported_pids_elem w d cp pcp ncp pid :
  compliantProducts d = Some cp ->
  partiallyCompliantProducts d = Some pcp ->
  nonCompliantProducts d = Some ncp ->
  pid ∈ reported_pids w d
  <-> pid ∈ ncp
      ∨ (is_simple_content_access w = false
         ∧ pid ∈ (get_installed_products w).*1
         ∧ cp !! pid = None ∧ pcp !! pid = None).
Proof.
  intros Hcp Hpcp Hncp. unfold reported_pids. rewrite Hncp. simpl.
  destruct (is_simple_content_access w).
  { split; [by left|]. by intros [?|[? _]]. }
  rewrite unreported_loop_elem_iff, !has_key_false. simpl.
  rewrite Hcp, Hpcp. simpl. tauto.
Qed.

Lemma file_loop_lookup w l pid : ∀ m,
  unentitled_products (foldl (file_unentitled w) m l) !! pid
  = if bool_decide (pid ∈ l)
    then match find_by_product w pid with
         | Some c => Some c
         | None => unentitled_products m !! pid
         end
    else unentitled_products m !! pid.
Proof.
  induction l as [|k l IH]; intros m; cbn [foldl].
  { rewrite bool_decide_eq_false_2; [done|]. by intros ?%elem_of_nil. }
  rewrite IH. unfold file_unentitled.
  destruct (decide (pid = k)) as [->|Hne].
  - rewrite (bool_decide_eq_true_2 (k ∈ k :: l)) by (apply elem_of_cons; by left).
    destruct (find_by_product w k) as [c|]; simpl_store.
    + rewrite lookup_insert_eq. by destruct (bool_decide (k ∈ l)).
    + by destruct (bool_decide (k ∈ l)).
  - assert (bool_decide (pid ∈ k :: l) = bool_decide (pid ∈ l)) as ->.
    { apply bool_decide_ext. rewrite elem_of_cons. tauto. }
    destruct (find_by_product w k) as [c|]; simpl_store; [|done].
    by rewrite lookup_insert_ne.
Qed.

Lemma unentitled_products_scan w u l m :
  unentitled_products (foldl (scan_cert w u) m l) = unentitled_products m.
Proof.
  apply foldl_frame. intros ? ?. unfold scan_cert.
  rewrite foldl_frame; [by case_match|].
  intros ? ?. unfold scan_product. by repeat case_match.
Qed.

(** The unentitled bucket after a load with a snapshot. *)
Lemma unentitled_of_load w s r d cp pcp ncp :
  is_registered w = true -> load_status w = Some r -> heap s !! r = Some d ->
  complete d ->
  compliantProducts d = Some cp ->
  partiallyCompliantProducts d = Some pcp ->
  nonCompliantProducts d = Some ncp ->
  ∃ s', load w s = (s', Ok tt)
        ∧ ∀ pid c,
            unentitled_products (self s') !! pid = Some c
            <-> find_by_product w pid = Some c
                ∧ (pid ∈ ncp
                   ∨ (is_simple_content_access w = false
                      ∧ pid ∈ (get_installed_products w).*1
                      ∧ cp !! pid = None ∧ pcp !! pid = None)).
Proof.
  intros Hreg Hst Hh Hd Hcp Hpcp Hncp.
  eexists. split; [by apply load_closed_form|].
  intros pid c. cbn [self]. simpl_store. unfold loaded_self.
  rewrite unentitled_products_scan, file_loop_lookup. simpl.
  rewrite <- (reported_pids_elem w d cp pcp ncp pid) by done.
  case_bool_decide as Hin.
  - destruct (find_by_product w pid); rewrite ?lookup_empty; split;
      try tauto; try (intros [? _]; congruence); congruence.
  - rewrite lookup_empty. split; [done|tauto].
Qed.

(** X7: after a load with a snapshot, a product id is unentitled, with the
    product certificate [c], exactly when the product directory finds [c]
    for it and either the server lists the id as non-compliant or, without
    simple content access, it is installed and in neither dict of the
    server. An id of the server that the directory does not find is left
    out. *)
Theorem unentitled_after_load w s r d cp pcp ncp :
  is_registered w = true -> load_status w = Some r -> heap s !! r = Some d ->
  complete d ->
  compliantProducts d = Some cp ->
  partiallyCompliantProducts d = Some pcp ->
  nonCompliantProducts d = Some ncp ->
  ∃ s', load w s = (s', Ok tt)
        ∧ ∀ pid c,
            unentitled_products (self s') !! pid = Some c
            <-> find_by_product w pid = Some c
                ∧ (pid ∈ ncp
                   ∨ (is_simple_content_access w = false
                      ∧ pid ∈ (get_installed_products w).*1
                      ∧ cp !! pid = None ∧ pcp !! pid = None)).
Proof. apply unentitled_of_load. Qed.

Lemma unentitled_after_load_witness :
  ∃ s', load quiet_world quiet_store = (s', Ok tt)
        ∧ ∀ pid c,
            unentitled_products (self s') !! pid = Some c
            <-> find_by_product quiet_world pid = Some c
                ∧ (pid ∈ @nil string
                   ∨ (is_simple_content_access quiet_world = false
                      ∧ pid ∈ (get_installed_products quiet_world).*1
                      ∧ (∅ : gmap string (list CertJson)) !! pid = None
                      ∧ (∅ : gmap string (list CertJson)) !! pid = None)).
Proof.
  apply (unentitled_after_load quiet_world quiet_store 0%nat quiet_snapshot
           ∅ ∅ []); try reflexivity.
  unfold complete. simpl. eauto 10.
Defined.

(** ** What [load] leaves of the heap *)

Lemma unreported_loop_prefix m keys : ∀ l,
  l `prefix_of` foldl (unreported_step m) l keys.
Proof.
  induction keys as [|k keys IH]; intros l; simpl; [done|].
  etransitivity; [|apply IH]. unfold unreported_step.
  case_match; [by apply prefix_app_r|done].
Qed.

(** X8: a load with a snapshot touches no other dict of the heap, and in
    the dict it received it changes no key but [nonCompliantProducts],
    whose list keeps the received elements in front; with simple content
    access the heap is left as it was. *)
Theorem load_heap_frame w s r d ncp :
  is_registered w = true -> load_status w = Some r -> heap s !! r = Some d ->
  complete d ->
  nonCompliantProducts d = Some ncp ->
  ∃ s' l, load w s = (s', Ok tt)
        ∧ (∀ r', r' ≠ r -> heap s' !! r' = heap s !! r')
        ∧ heap s' !! r = Some (set_nonCompliantProducts (Some l) d)
        ∧ ncp `prefix_of` l
        ∧ (is_simple_content_access w = true -> heap s' = heap s).
Proof.
  intros Hreg Hst Hh Hd Hncp.
  eexists. exists (reported_pids w d). split; [by apply load_closed_form|].
  cbn [heap]. split; [|split; [|split]].
  - intros r' Hne. by rewrite lookup_insert_ne.
  - by rewrite lookup_insert_eq.
  - unfold reported_pids. rewrite Hncp. simpl.
    destruct (is_simple_content_access w); [done|].
    apply unreported_loop_prefix.
  - intros Hsca. unfold reported_pids. rewrite Hsca, Hncp. simpl.
    rewrite set_nonCompliantProducts_id by done. by apply insert_id.
Qed.

Lemma load_heap_frame_witness :
  ∃ s' l, load quiet_world quiet_store = (s', Ok tt)
        ∧ (∀ r', r' ≠ 0%nat -> heap s' !! r' = heap quiet_store !! r')
        ∧ heap s' !! 0%nat = Some (set_nonCompliantProducts (Some l) quiet_snapshot)
        ∧ [] `prefix_of` l
        ∧ (is_simple_content_access quiet_world = true -> heap s' = heap quiet_store).
Proof.
  apply (load_heap_frame quiet_world quiet_store 0%nat quiet_snapshot []);
    try reflexivity.
  unfold complete. simpl. eauto 10.
Defined.

(** ** The future and the expired bucket *)

Lemma setdefault_append_elem {V} (d : gmap string (list V)) k x k' y :
  y ∈ default [] (setdefault_append d k x !! k')
  <-> y ∈ default [] (d !! k') ∨ (k' = k ∧ y = x).
Proof.
  unfold setdefault_append. destruct (decide (k = k')) as [->|Hne].
  - rewrite lookup_insert_eq. simpl.
    rewrite elem_of_app, list_elem_of_singleton. tauto.
  - rewrite lookup_insert_ne by done. split; [by left|].
    intros [H|[E _]]; [done|congruence].
Qed.

Lemma scan_product_future w u c m p pid c' :
  c' ∈ default [] (future_products (scan_product w u c m p) !! pid)
  <-> c' ∈ default [] (future_products m !! pid)
      ∨ (c' = c ∧ pid = product_id p ∧ pid ∈ u.*1
         ∧ (now w < valid_range_begin c)%Z).
Proof.
  unfold scan_product, in_list.
  destruct (bool_decide (product_id p ∈ u.*1)) eqn:Hin.
  2:{ apply bool_decide_eq_false in Hin. split; [by left|].
      intros [H|(_ & -> & H & _)]; done. }
  apply bool_decide_eq_true in Hin.
  destruct (now w <? valid_range_begin c)%Z eqn:Hb.
  - apply Z.ltb_lt in Hb. simpl_store. rewrite setdefault_append_elem.
    split; (intros [H|H]; [by left|right]); [|tauto].
    destruct H as [-> ->]. done.
  - apply Z.ltb_ge in Hb.
    destruct (valid_range_end c <? now w)%Z; simpl_store;
      (split; [by left|]); intros [H|(_ & _ & _ & H)]; try done; lia.
Qed.

Lemma scan_product_expired w u c m p pid c' :
  c' ∈ default [] (expired_products (scan_product w u c m p) !! pid)
  <-> c' ∈ default [] (expired_products m !! pid)
      ∨ (c' = c ∧ pid = product_id p ∧ pid ∈ u.*1
         ∧ (valid_range_begin c <= now w)%Z ∧ (valid_range_end c < now w)%Z).
Proof.
  unfold scan_product, in_list.
  destruct (bool_decide (product_id p ∈ u.*1)) eqn:Hin.
  2:{ apply bool_decide_eq_false in Hin. split; [by left|].
      intros [H|(_ & -> & H & _)]; done. }
  apply bool_decide_eq_true in Hin.
  destruct (now w <? valid_range_begin c)%Z eqn:Hb.
  - apply Z.ltb_lt in Hb. simpl_store.
    split; [by left|]. intros [H|(_ & _ & _ & H & _)]; [done|lia].
  - apply Z.ltb_ge in Hb.
    destruct (valid_range_end c <? now w)%Z eqn:He; simpl_store.
    + apply Z.ltb_lt in He. rewrite setdefault_append_elem.
      split; (intros [H|H]; [by left|right]); [|tauto].
      destruct H as [-> ->]. done.
    + apply Z.ltb_ge in He.
      split; [by left|]. intros [H|(_ & _ & _ & _ & H)]; [done|lia].
Qed.

Lemma scan_products_loop w u c ps pid c' : ∀ m,
  (c' ∈ default [] (future_products (foldl (scan_product w u c) m ps) !! pid)
   <-> c' ∈ default [] (future_products m !! pid)
       ∨ (c' = c ∧ pid ∈ product_id <$> ps ∧ pid ∈ u.*1
          ∧ (now w < valid_range_begin c)%Z))
  ∧ (c' ∈ default [] (expired_products (foldl (scan_product w u c) m ps) !! pid)
     <-> c' ∈ default [] (expired_products m !! pid)
         ∨ (c' = c ∧ pid ∈ product_id <$> ps ∧ pid ∈ u.*1
            ∧ (valid_range_begin c <= now w)%Z ∧ (valid_range_end c < now w)%Z)).
Proof.
  induction ps as [|p ps IH]; intros m; simpl.
  { split; (split; [by left|]); intros [H|(_ & H & _)]; try done;
      by apply elem_of_nil in H. }
  destruct (IH (scan_product w u c m p)) as [IHf IHe].
  rewrite IHf, IHe, scan_product_future, scan_product_expired, !elem_of_cons.
  split; split; intros H; intuition (subst; auto).
Qed.

Lemma scan_certs_loop w u l pid c' : ∀ m,
  (c' ∈ default [] (future_products (foldl (scan_cert w u) m l) !! pid)
   <-> c' ∈ default [] (future_products m !! pid)
       ∨ (c' ∈ l ∧ pid ∈ product_id <$> products c' ∧ pid ∈ u.*1
          ∧ (now w < valid_range_begin c')%Z))
  ∧ (c' ∈ default [] (expired_products (foldl (scan_cert w u) m l) !! pid)
     <-> c' ∈ default [] (expired_products m !! pid)
         ∨ (c' ∈ l ∧ pid ∈ product_id <$> products c' ∧ pid ∈ u.*1
            ∧ (valid_range_begin c' <= now w)%Z ∧ (valid_range_end c' < now w)%Z)).
Proof.
  induction l as [|c l IH]; intros m; simpl.
  { split; (split; [by left|]); intros [H|(H & _)]; try done;
      by apply elem_of_nil in H. }
  destruct (IH (scan_cert w u m c)) as [IHf IHe].
  rewrite IHf, IHe. unfold scan_cert.
  set (m1 := if is_valid c then _ else m).
  assert (future_products m1 = future_products m
          ∧ expired_products m1 = expired_products m) as [Ef Ee]
    by (subst m1; by case_match).
  destruct (scan_products_loop w u c (products c) pid c' m1) as [Hf He].
  rewrite Hf, He, Ef, Ee, !elem_of_cons.
  split; split; intros H; intuition (subst; auto).
Qed.

Lemma unknown_products_elem m pid :
  pid ∈ (unknown_products m).*1
  <-> pid ∈ (installed_products m).*1
      ∧ valid_products m !! pid = None
      ∧ partially_valid_products m !! pid = None.
Proof.
  unfold unknown_products. rewrite <- !has_key_false, !list_elem_of_fmap. split.
  - intros ((k & pc) & -> & Hin). apply list_elem_of_In, filter_In in Hin as [Hin Hf].
    simpl in *. apply andb_true_iff in Hf as [H1 H2].
    apply negb_true_iff in H1, H2. split; [|done].
    exists (k, pc). split; [done|]. by apply list_elem_of_In.
  - intros (((k & pc) & -> & Hin) & H1 & H2). simpl in *.
    exists (k, pc). split; [done|]. apply list_elem_of_In, filter_In.
    split; [by apply list_elem_of_In|]. simpl. by rewrite H1, H2.
Qed.

(** What the scan leaves under a product id, after a load with a
    snapshot. *)
Lemma local_buckets_of_load w s r d cp pcp :
  is_registered w = true -> load_status w = Some r -> heap s !! r = Some d ->
  complete d ->
  compliantProducts d = Some cp ->
  partiallyCompliantProducts d = Some pcp ->
  ∃ s', load w s = (s', Ok tt)
    ∧ valid_products (self s') = cp
    ∧ partially_valid_products (self s') = pcp
    ∧ (∀ pid c,
         c ∈ default [] (future_products (self s') !! pid)
         <-> pid ∈ (get_installed_products w).*1
             ∧ cp !! pid = None ∧ pcp !! pid = None
             ∧ c ∈ entitlement_dir_list w
             ∧ pid ∈ product_id <$> products c
             ∧ (now w < valid_range_begin c)%Z)
    ∧ (∀ pid c,
         c ∈ default [] (expired_products (self s') !! pid)
         <-> pid ∈ (get_installed_products w).*1
             ∧ cp !! pid = None ∧ pcp !! pid = None
             ∧ c ∈ entitlement_dir_list w
             ∧ pid ∈ product_id <$> products c
             ∧ (valid_range_begin c <= now w)%Z
             ∧ (valid_range_end c < now w)%Z).
Proof.
  intros Hreg Hst Hh Hd Hcp Hpcp.
  eexists. split; [by apply load_closed_form|].
  cbn [self]. simpl_store. unfold loaded_self.
  set (m := foldl (file_unentitled w) (snapshot_self w d) (reported_pids w d)).
  assert (installed_products m = get_installed_products w) as Hi
    by (subst m; by rewrite installed_products_file).
  assert (valid_products m = cp) as Hv
    by (subst m; rewrite valid_products_file; simpl; by rewrite Hcp).
  assert (partially_valid_products m = pcp) as Hp
    by (subst m; rewrite partially_valid_products_file; simpl; by rewrite Hpcp).
  assert (future_products m = ∅) as Hf
    by (subst m; by rewrite future_products_file).
  assert (expired_products m = ∅) as He
    by (subst m; by rewrite expired_products_file).
  rewrite valid_products_scan, partially_valid_products_scan.
  split; [done|]. split; [done|].
  split; intros pid c;
    destruct (scan_certs_loop w (unknown_products m) (entitlement_dir_list w)
                pid c m) as [Hfut Hexp].
  - rewrite Hfut, Hf, lookup_empty, unknown_products_elem, Hi, Hv, Hp. simpl.
    split; [intros [H|H]; [by apply elem_of_nil in H|tauto] | tauto].
  - rewrite Hexp, He, lookup_empty, unknown_products_elem, Hi, Hv, Hp. simpl.
    split; [intros [H|H]; [by apply elem_of_nil in H|tauto] | tauto].
Qed.

(** X9: after a load with a snapshot, the certificates filed under a
    product id in the future bucket are the certificates of the entitlement
    directory that cover the id and begin after now, when the id is
    installed and in neither dict of the server; there are none
    otherwise. *)
Theorem future_bucket_after_load w s r d cp pcp :
  is_registered w = true -> load_status w = Some r -> heap s !! r = Some d ->
  complete d ->
  compliantProducts d = Some cp ->
  partiallyCompliantProducts d = Some pcp ->
  ∃ s', load w s = (s', Ok tt)
    ∧ ∀ pid c,
        c ∈ default [] (future_products (self s') !! pid)
        <-> pid ∈ (get_installed_products w).*1
            ∧ cp !! pid = None ∧ pcp !! pid = None
            ∧ c ∈ entitlement_dir_list w
            ∧ pid ∈ product_id <$> products c
            ∧ (now w < valid_range_begin c)%Z.
Proof.
  intros Hreg Hst Hh Hd Hcp Hpcp.
  destruct (local_buckets_of_load w s r d cp pcp)
    as (s' & Hrun & _ & _ & Hf & _); try done. eauto.
Qed.

Lemma future_bucket_after_load_witness :
  ∃ s', load lapsed_world lapsed_store = (s', Ok tt)
    ∧ ∀ pid c,
        c ∈ default [] (future_products (self s') !! pid)
        <-> pid ∈ (get_installed_products lapsed_world).*1
            ∧ (∅ : gmap string (list CertJson)) !! pid = None
            ∧ (∅ : gmap string (list CertJson)) !! pid = None
            ∧ c ∈ entitlement_dir_list lapsed_world
            ∧ pid ∈ product_id <$> products c
            ∧ (now lapsed_world < valid_range_begin c)%Z.
Proof.
  apply (future_bucket_after_load lapsed_world lapsed_store 0%nat
           invalid_snapshot ∅ ∅); try reflexivity.
  unfold complete. simpl. eauto 10.
Defined.

(** X10: after a load with a snapshot, the certificates filed under a
    product id in the expired bucket are the certificates of the
    entitlement directory that cover the id, do not begin after now and
    ended before now, when the id is installed and in neither dict of the
    server; there are none otherwise. *)
Theorem expired_bucket_after_load w s r d cp pcp :
  is_registered w = true -> load_status w = Some r -> heap s !! r = Some d ->
  complete d ->
  compliantProducts d = Some cp ->
  partiallyCompliantProducts d = Some pcp ->
  ∃ s', load w s = (s', Ok tt)
    ∧ ∀ pid c,
        c ∈ default [] (expired_products (self s') !! pid)
        <-> pid ∈ (get_installed_products w).*1
            ∧ cp !! pid = None ∧ pcp !! pid = None
            ∧ c ∈ entitlement_dir_list w
            ∧ pid ∈ product_id <$> products c
            ∧ (valid_range_begin c <= now w)%Z
            ∧ (valid_range_end c < now w)%Z.
Proof.
  intros Hreg Hst Hh Hd Hcp Hpcp.
  destruct (local_buckets_of_load w s r d cp pcp)
    as (s' & Hrun & _ & _ & _ & He); try done. eauto.
Qed.

Lemma expired_bucket_after_load_witness :
  ∃ s', load lapsed_world lapsed_store = (s', Ok tt)
    ∧ ∀ pid c,
        c ∈ default [] (expired_products (self s') !! pid)
        <-> pid ∈ (get_installed_products lapsed_world).*1
            ∧ (∅ : gmap string (list CertJson)) !! pid = None
            ∧ (∅ : gmap string (list CertJson)) !! pid = None
            ∧ c ∈ entitlement_dir_list lapsed_world
            ∧ pid ∈ product_id <$> products c
            ∧ (valid_range_begin c <= now lapsed_world)%Z
            ∧ (valid_range_end c < now lapsed_world)%Z.
Proof.
  apply (expired_bucket_after_load lapsed_world lapsed_store 0%nat
           invalid_snapshot ∅ ∅); try reflexivity.
  unfold complete. simpl. eauto 10.
Defined.

(** ** The status of installed products *)

Lemma is_Some_of_elem {V} (o : option (list V)) x : x ∈ default [] o -> is_Some o.
Proof. destruct o; [eauto|]. by intros ?%elem_of_nil. Qed.

(** X11: after a load with a snapshot, an installed product that is in
    neither dict of the server and that a certificate of the entitlement
    directory covers from an instant after now has the status
    "future_subscribed". *)
Theorem future_entitlement_status w s r d cp pcp pid c :
  is_registered w = true -> load_status w = Some r -> heap s !! r = Some d ->
  complete d ->
  compliantProducts d = Some cp ->
  partiallyCompliantProducts d = Some pcp ->
  pid ∈ (get_installed_products w).*1 ->
  cp !! pid = None -> pcp !! pid = None ->
  c ∈ entitlement_dir_list w ->
  pid ∈ product_id <$> products c ->
  (now w < valid_range_begin c)%Z ->
  ∃ s', load w s = (s', Ok tt)
        ∧ get_status w (self s') pid = FUTURE_SUBSCRIBED.
Proof.
  intros Hreg Hst Hh Hd Hcp Hpcp Hin Hv Hp Hc Hcov Hb.
  destruct (local_buckets_of_load w s r d cp pcp)
    as (s' & Hrun & Ev & Ep & Hf & _); try done.
  exists s'. split; [done|]. unfold get_status. rewrite Hreg, Ev, Ep. simpl.
  rewrite (proj2 (has_key_false pcp pid) Hp), (proj2 (has_key_false cp pid) Hv).
  assert (has_key (future_products (self s')) pid = true) as ->; [|done].
  apply has_key_true. apply (is_Some_of_elem _ c). apply Hf. tauto.
Qed.

Lemma future_entitlement_status_witness :
  ∃ s', load lapsed_world lapsed_store = (s', Ok tt)
        ∧ get_status lapsed_world (self s') "p1" = FUTURE_SUBSCRIBED.
Proof.
  apply (future_entitlement_status lapsed_world lapsed_store 0%nat
           invalid_snapshot ∅ ∅ "p1" upcoming_cert); try reflexivity.
  - unfold complete. simpl. eauto 10.
  - simpl. apply elem_of_cons. by left.
  - simpl. apply elem_of_cons. right. apply elem_of_cons. by left.
  - simpl. apply elem_of_cons. by left.
Defined.

(** X12: without simple content access, after a load with a snapshot,
    every installed product for which the product directory finds a
    certificate has a status other than UNKNOWN. *)
Theorem installed_product_has_status w s r d pid pc :
  is_registered w = true -> load_status w = Some r -> heap s !! r = Some d ->
  complete d ->
  is_simple_content_access w = false ->
  pid ∈ (get_installed_products w).*1 ->
  find_by_product w pid = Some pc ->
  ∃ s', load w s = (s', Ok tt)
        ∧ get_status w (self s') pid ≠ UNKNOWN.
Proof.
  intros Hreg Hst Hh Hd Hsca Hin Hfind.
  pose proof Hd as ([cp Hcp] & [pcp Hpcp] & _ & [ncp Hncp] & _).
  destruct (local_buckets_of_load w s r d cp pcp)
    as (s' & Hrun & Ev & Ep & _); try done.
  destruct (unentitled_of_load w s r d cp pcp ncp)
    as (s'' & Hrun' & Hun); try done.
  rewrite Hrun in Hrun'. injection Hrun' as <-.
  exists s'. split; [done|]. unfold get_status. rewrite Hreg, Ev, Ep. simpl.
  destruct (has_key pcp pid) eqn:Hp; [done|].
  destruct (has_key cp pid) eqn:Hv; [done|].
  destruct (has_key (future_products (self s')) pid); [done|].
  destruct (has_key (expired_products (self s')) pid); [done|].
  assert (has_key (unentitled_products (self s')) pid = true) as ->; [|done].
  apply has_key_true. exists pc. apply Hun. split; [done|].
  apply has_key_false in Hp, Hv.
  destruct (decide (pid ∈ ncp)); [by left|by right].
Qed.

Lemma installed_product_has_status_witness :
  ∃ s', load quiet_world quiet_store = (s', Ok tt)
        ∧ get_status quiet_world (self s') "p1" ≠ UNKNOWN.
Proof.
  apply (installed_product_has_status quiet_world quiet_store 0%nat
           quiet_snapshot "p1" p1_cert); try reflexivity.
  - unfold complete. simpl. eauto 10.
  - simpl. apply elem_of_cons. by left.
Defined.

(** ** Two loads *)

(** X13: two loads in succession, with the same answers of the
    collaborators and the same instant, give the same view when the dict
    that the status cache hands out the second time has the content that
    the first dict had when it was received. *)
Theorem load_twice_same_content w s r1 r2 d :
  is_registered w = true -> complete d ->
  heap s !! r1 = Some d ->
  heap (load (set_load_status (Some r1) w) s).1 !! r2 = Some d ->
  view (self (load (set_load_status (Some r2) w)
                   (load (set_load_status (Some r1) w) s).1).1)
  = view (self (load (set_load_status (Some r1) w) s).1).
Proof. apply load_twice_fresh_snapshot. Qed.

Lemma load_twice_same_content_witness :
  view (self (load (set_load_status (Some 1%nat) quiet_world)
                   (load (set_load_status (Some 0%nat) quiet_world) twin_store).1).1)
  = view (self (load (set_load_status (Some 0%nat) quiet_world) twin_store).1).
Proof.
  apply (load_twice_same_content quiet_world twin_store 0%nat 1%nat quiet_snapshot).
  - reflexivity.
  - unfold complete. simpl. eauto 10.
  - reflexivity.
  - vm_compute. reflexivity.
Defined.

(** ** Registration of observers *)

(** X14: the observers are a set: a callback registered twice is registered
    once, one removal unregisters it and reports success, and a second
    removal reports failure and changes nothing. *)
Theorem observers_are_a_set (cb : Callback) (s : CertSorter) :
  add_callback cb (add_callback cb s) = add_callback cb s
  ∧ snd (remove_callback cb (add_callback cb (add_callback cb s))) = true
  ∧ (cb ∉ callbacks (fst (remove_callback cb (add_callback cb (add_callback cb s)))))
  ∧ remove_callback cb
      (fst (remove_callback cb (add_callback cb (add_callback cb s))))
    = (fst (remove_callback cb (add_callback cb (add_callback cb s))), false).
Proof.
  assert (add_callback cb (add_callback cb s) = add_callback cb s) as ->.
  { unfold add_callback. simpl. f_equal. apply set_eq. intros x.
    rewrite !elem_of_union. tauto. }
  assert (cb ∈ callbacks (add_callback cb s)) as Hin.
  { unfold add_callback. simpl. apply elem_of_union. right.
    by apply elem_of_singleton. }
  destruct (remove_callback_reports cb (add_callback cb s)) as [Hb Hout].
  rewrite Hb. rewrite bool_decide_eq_true_2 by done.
  repeat split; [done|].
  unfold remove_callback at 1. by rewrite bool_decide_eq_false_2.
Qed.

(** A callback registered twice is invoked once by a pass. *)
Lemma double_registration_single_call body iter cb s :
  (∀ X, iter X ≡ₚ elements X) ->
  NoDup (notify body iter (add_callback cb (add_callback cb s))).2
  ∧ cb ∈ (notify body iter (add_callback cb (add_callback cb s))).2.
Proof.
  intros Hiter.
  destruct (notify_invoked body iter Hiter (add_callback cb (add_callback cb s)))
    as [Hnd Hin].
  split; [done|]. apply Hin. unfold add_callback. simpl.
  apply elem_of_union. right. by apply elem_of_singleton.
Qed.

(** ** A change of the certificates *)

(** X15: [on_change] notifies the observers only when its load returns:
    then every observer registered at that moment is invoked once; when the
    load raises, the exception leaves [on_change], no callback is invoked
    and the observer set is as before. *)
Theorem on_change_notifies_after_load w body iter s cs :
  (∀ X, iter X ≡ₚ elements X) ->
  match (load w s).2 with
  | Ok _ =>
      ∃ invoked,
        (on_change w body iter s cs).2 = Ok invoked
        ∧ (on_change w body iter s cs).1.1 = (load w s).1
        ∧ NoDup invoked
        ∧ ∀ cb, cb ∈ invoked <-> cb ∈ callbacks cs
  | Raise e =>
      (on_change w body iter s cs).2 = Raise e
      ∧ (on_change w body iter s cs).1 = ((load w s).1, cs)
  end.
Proof.
  intros Hiter. unfold on_change.
  destruct (load w s) as [s' [[]|e]]; simpl; [|done].
  destruct (notify_invoked body iter Hiter cs) as [Hnd Hin].
  destruct (notify body iter cs) as [cs' invoked]. simpl in *.
  exists invoked. done.
Qed.

Lemma on_change_notifies_after_load_witness :
  match (load quiet_world quiet_store).2 with
  | Ok _ =>
      ∃ invoked,
        (on_change quiet_world scenario_E_body ascending quiet_store scenario_E).2
        = Ok invoked
        ∧ (on_change quiet_world scenario_E_body ascending quiet_store
             scenario_E).1.1 = (load quiet_world quiet_store).1
        ∧ NoDup invoked
        ∧ ∀ cb, cb ∈ invoked <-> cb ∈ callbacks scenario_E
  | Raise e =>
      (on_change quiet_world scenario_E_body ascending quiet_store scenario_E).2
      = Raise e
      ∧ (on_change quiet_world scenario_E_body ascending quiet_store scenario_E).1
        = ((load quiet_world quiet_store).1, scenario_E)
  end.
Proof.
  apply (on_change_notifies_after_load quiet_world scenario_E_body ascending
           quiet_store scenario_E).
  intros X. apply merge_sort_Permutation.
Defined.

(** ** The groups of a stacking sorter *)

Section groups.
Variables key name_of : EntitlementCertificate -> option string.

Lemma unseen_cons_eq seen k d :
  key d = Some k -> k ∉ seen ->
  unseen key seen d = true ∧ unseen key (k :: seen) d = false.
Proof.
  intros Hd Hk. unfold unseen. rewrite Hd.
  rewrite bool_decide_eq_false_2 by done.
  rewrite bool_decide_eq_true_2 by (apply elem_of_cons; by left). done.
Qed.

Lemma unseen_cons_ne seen k d :
  key d ≠ Some k -> unseen key (k :: seen) d = unseen key seen d.
Proof.
  intros Hd. unfold unseen. destruct (key d) as [k'|]; [|done].
  f_equal. apply bool_decide_ext. rewrite elem_of_cons.
  split; [intros [->|H]; [done|done] | by right].
Qed.

Lemma filter_unseen_split seen k l :
  k ∉ seen ->
  filter (fun d => unseen key seen d = true) l
  ≡ₚ filter (fun d => key d = Some k) l
     ++ filter (fun d => unseen key (k :: seen) d = true) l.
Proof.
  intros Hk. induction l as [|d l IH]; [done|].
  rewrite !filter_cons.
  destruct (decide (key d = Some k)) as [Hd|Hd].
  - destruct (unseen_cons_eq seen k d Hd Hk) as [E1 E2].
    rewrite decide_True by done. rewrite decide_False by (rewrite E2; done).
    simpl. by rewrite IH.
  - rewrite (unseen_cons_ne seen k d Hd).
    destruct (unseen key seen d) eqn:E.
    + rewrite !decide_True by done. rewrite IH. apply Permutation_middle.
    + rewrite !decide_False by done. done.
Qed.

Lemma assemble_members l : ∀ seen,
  concat (entitlements <$> assemble key name_of seen l)
  ≡ₚ filter (fun d => unseen key seen d = true) l.
Proof.
  induction l as [|c l IH]; intros seen; simpl; [done|].
  rewrite filter_cons.
  destruct (key c) as [k|] eqn:Hc.
  - destruct (bool_decide (k ∈ seen)) eqn:Hk; simpl.
    + rewrite decide_False; [apply IH|]. unfold unseen. by rewrite Hc, Hk.
    + rewrite decide_True by (unfold unseen; by rewrite Hc, Hk).
      apply bool_decide_eq_false in Hk.
      simpl. rewrite IH. constructor. symmetry. by apply filter_unseen_split.
  - rewrite decide_True by (unfold unseen; by rewrite Hc). simpl. by rewrite IH.
Qed.

Lemma assemble_shape l : ∀ seen,
  Forall (fun g =>
    ∃ c rest, entitlements g = c :: rest
      ∧ ((key c = None ∧ rest = [] ∧ name g = Some "")
         ∨ (∃ k, key c = Some k ∧ name g = name_of c
                 ∧ Forall (fun d => key d = Some k) rest)))
    (assemble key name_of seen l).
Proof.
  induction l as [|c l IH]; intros seen; simpl; [constructor|].
  destruct (key c) as [k|] eqn:Hc.
  - destruct (bool_decide (k ∈ seen)); [apply IH|].
    constructor; [|apply IH]. exists c, (filter (fun d => key d = Some k) l).
    split; [done|]. right. exists k. split; [done|]. split; [done|].
    apply Forall_forall. by intros d [Hd _]%list_elem_of_filter.
  - constructor; [|apply IH]. exists c, []. split; [done|]. by left.
Qed.

Lemma omap_group_key_cons nm c rest l :
  omap (group_key key) ({| name := nm; entitlements := c :: rest |} :: l)
  = match key c with
    | Some k => k :: omap (group_key key) l
    | None => omap (group_key key) l
    end.
Proof. reflexivity. Qed.

Lemma assemble_keys l : ∀ seen,
  NoDup (omap (group_key key) (assemble key name_of seen l))
  ∧ ∀ k, k ∈ omap (group_key key) (assemble key name_of seen l) -> k ∉ seen.
Proof.
  induction l as [|c l IH]; intros seen; cbn [assemble].
  { split; [constructor|]. by intros k ?%elem_of_nil. }
  destruct (key c) as [k|] eqn:Hc.
  - destruct (bool_decide (k ∈ seen)) eqn:Hk; [apply IH|].
    apply bool_decide_eq_false in Hk.
    destruct (IH (k :: seen)) as [Hnd Hout].
    rewrite omap_group_key_cons, Hc. split.
    + constructor; [|done]. intros Hin%Hout. apply Hin, elem_of_cons. by left.
    + intros k' [->|Hin]%elem_of_cons; [done|].
      apply Hout in Hin. intros Hs. apply Hin, elem_of_cons. by right.
  - rewrite omap_group_key_cons, Hc. apply IH.
Qed.
End groups.

(** X16: the groups of a stacking sorter hold every certificate of the
    input exactly once: their member lists, one after the other, are a
    permutation of the input. *)
Theorem stacking_keeps_every_certificate
  (key name_of : EntitlementCertificate -> option string)
  (entitlements0 : list EntitlementCertificate) :
  concat (entitlements <$> groups (new_StackingGroupSorter key name_of entitlements0))
  ≡ₚ entitlements0.
Proof.
  rewrite sorter_groups, assemble_members.
  induction entitlements0 as [|c l IH]; [done|].
  rewrite filter_cons, decide_True; [by rewrite IH|].
  unfold unseen. destruct (nonempty_key key c); [|done].
  rewrite bool_decide_eq_false_2; [done|]. by intros ?%elem_of_nil.
Qed.

(** X17: every group of a stacking sorter has a first member; it is either
    that member alone, without a non-empty key and with the default name,
    or it is named from its first member and all its members have the
    non-empty key of the first. *)
Theorem stacking_groups_shape
  (key name_of : EntitlementCertificate -> option string)
  (entitlements0 : list EntitlementCertificate) :
  Forall (fun g =>
    ∃ c rest, entitlements g = c :: rest
      ∧ ((nonempty_key key c = None ∧ rest = [] ∧ name g = Some "")
         ∨ (∃ k, nonempty_key key c = Some k ∧ name g = name_of c
                 ∧ Forall (fun d => nonempty_key key d = Some k) rest)))
    (groups (new_StackingGroupSorter key name_of entitlements0)).
Proof. rewrite sorter_groups. apply assemble_shape. Qed.

(** X18: no two groups of a stacking sorter have the same non-empty key. *)
Theorem stacking_groups_distinct_keys
  (key name_of : EntitlementCertificate -> option string)
  (entitlements0 : list EntitlementCertificate) :
  NoDup (omap (group_key (nonempty_key key))
              (groups (new_StackingGroupSorter key name_of entitlements0))).
Proof. rewrite sorter_groups. apply assemble_keys. Qed.

(** X19: entitlement certificates without an order, or whose order has no
    stacking id or an empty one, each form a group of their own, in the
    order of the input and with the default name. *)
Theorem unstacked_certs_are_singletons (certs : list EntitlementCertificate) :
  Forall (fun c => cert_get_stacking_id c = None ∨ cert_get_stacking_id c = Some "")
         certs ->
  groups (new_EntitlementCertStackingGroupSorter certs)
  = (fun c => {| name := Some ""; entitlements := [c] |}) <$> certs.
Proof.
  intros Hall. unfold new_EntitlementCertStackingGroupSorter.
  rewrite sorter_groups. generalize (@nil string).
  induction Hall as [|c l Hc Hl IH]; intros seen; simpl; [done|].
  assert (nonempty_key cert_get_stacking_id c = None) as ->.
  { unfold nonempty_key. by destruct Hc as [-> | ->]. }
  by rewrite IH.
Qed.

Lemma unstacked_certs_are_singletons_witness :
  groups (new_EntitlementCertStackingGroupSorter [lapsed_cert; empty_key_cert 1])
  = (fun c => {| name := Some ""; entitlements := [c] |})
      <$> [lapsed_cert; empty_key_cert 1].
Proof.
  apply (unstacked_certs_are_singletons [lapsed_cert; empty_key_cert 1]).
  constructor; [by left|]. constructor; [by right|]. constructor.
Defined.

(** X20: certificates that all have the same non-empty stacking key form
    one group, named from the first of them, with all of them in the order
    of the input. *)
Theorem one_key_one_group
  (key name_of : EntitlementCertificate -> option string)
  (c : EntitlementCertificate) (rest : list EntitlementCertificate) (k : string) :
  k ≠ "" ->
  Forall (fun d => key d = Some k) (c :: rest) ->
  groups (new_StackingGroupSorter key name_of (c :: rest))
  = [ {| name := name_of c; entitlements := c :: rest |} ].
Proof.
  intros Hk Hall. rewrite sorter_groups.
  assert (∀ d, d ∈ c :: rest -> nonempty_key key d = Some k) as Hkey.
  { intros d Hd. rewrite Forall_forall in Hall. unfold nonempty_key.
    rewrite (Hall d Hd). by destruct k. }
  simpl. rewrite (Hkey c) by (apply elem_of_cons; by left). simpl.
  assert (∀ d, d ∈ rest -> nonempty_key key d = Some k) as Hrest
    by (intros d Hd; apply Hkey, elem_of_cons; by right).
  clear Hkey Hall. f_equal.
  - f_equal. f_equal. induction rest as [|d rest IH]; [done|].
    rewrite filter_cons, decide_True by (apply Hrest, elem_of_cons; by left).
    f_equal. apply IH. intros d' Hd'. apply Hrest, elem_of_cons. by right.
  - induction rest as [|d rest IH]; simpl; [done|].
    rewrite (Hrest d) by (apply elem_of_cons; by left).
    rewrite bool_decide_eq_true_2 by (apply elem_of_cons; by left).
    apply IH. intros d' Hd'. apply Hrest, elem_of_cons. by right.
Qed.

Lemma one_key_one_group_witness :
  groups (new_StackingGroupSorter cert_get_stacking_id cert_get_identity_name
            (stacked_cert 1 :: [stacked_cert 2]))
  = [ {| name := cert_get_identity_name (stacked_cert 1);
         entitlements := stacked_cert 1 :: [stacked_cert 2] |} ].
Proof.
  apply (one_key_one_group cert_get_stacking_id cert_get_identity_name
           (stacked_cert 1) [stacked_cert 2] "S1").
  - discriminate.
  - constructor; [reflexivity|]. constructor; [reflexivity|]. constructor.
Defined.

(** ** Without a snapshot *)

(** The load of a registered system whose status cache returns nothing. *)
Lemma load_without_snapshot_resets_eq w s :
  is_registered w = true -> load_status w = None ->
  ∃ s', load w s = (s', Ok tt)
        ∧ system_status (self s') = UNKNOWN
        ∧ valid_entitlement_certs (self s') = [].
Proof.
  intros Hreg Hst. eexists. split.
  - unfold load, _parse_server_status, get_compliance_status, bind, modify_self,
      get_self, ret.
    rewrite Hreg. simpl_store. rewrite Hst. reflexivity.
  - split; reflexivity.
Qed.

(** X21: when the system is unregistered or the status cache returns
    nothing, the load leaves a manager that is not valid and is in no
    warning period, whatever certificates the entitlement directory has,
    and whose icon is nevertheless the valid one. *)
Theorem icon_without_snapshot w s :
  is_registered w = false ∨ load_status w = None ->
  ∃ s', load w s = (s', Ok tt)
        ∧ Manager.is_valid (self s') = false
        ∧ in_warning_period (self s') = false
        ∧ get_status_for_icon (self s') = RHSM_VALID.
Proof.
  intros Hno.
  assert (∃ s', load w s = (s', Ok tt)
                ∧ system_status (self s') = UNKNOWN
                ∧ valid_entitlement_certs (self s') = []) as (s' & Hrun & Hs & Hv).
  { destruct (is_registered w) eqn:Hreg.
    - destruct Hno as [?|Hst]; [done|].
      destruct (load_without_snapshot_resets_eq w s Hreg Hst) as (s' & H & ? & ?).
      eauto.
    - eexists. split.
      + unfold load, _parse_server_status, bind, modify_self, ret.
        rewrite Hreg. simpl_store. reflexivity.
      + split; reflexivity. }
  exists s'. split; [done|].
  unfold Manager.is_valid, in_warning_period, get_status_for_icon, in_warning_period.
  by rewrite Hs, Hv.
Qed.

Lemma icon_without_snapshot_witness :
  ∃ s', load unreachable_world loaded_store = (s', Ok tt)
        ∧ Manager.is_valid (self s') = false
        ∧ in_warning_period (self s') = false
        ∧ get_status_for_icon (self s') = RHSM_VALID.
Proof.
  apply (icon_without_snapshot unreachable_world loaded_store).
  right. reflexivity.
Defined.

(** ** Products without a current verdict of the certificates *)

Lemma scan_product_other w u c m p pid :
  product_id p ≠ pid
  ∨ (valid_range_begin c <= now w <= valid_range_end c)%Z ->
  future_products (scan_product w u c m p) !! pid = future_products m !! pid
  ∧ expired_products (scan_product w u c m p) !! pid = expired_products m !! pid.
Proof.
  intros Hp. unfold scan_product, setdefault_append.
  destruct (in_list (product_id p) u.*1); [|done].
  destruct (now w <? valid_range_begin c)%Z eqn:Hb; simpl_store.
  { apply Z.ltb_lt in Hb. destruct Hp as [Hp|Hp]; [|lia].
    by rewrite lookup_insert_ne. }
  destruct (valid_range_end c <? now w)%Z eqn:He; simpl_store; [|done].
  apply Z.ltb_lt in He. destruct Hp as [Hp|Hp]; [|lia].
  by rewrite lookup_insert_ne.
Qed.

Lemma scan_loop_other w u l pid : ∀ m,
  (∀ c, c ∈ l -> pid ∈ product_id <$> products c ->
        (valid_range_begin c <= now w <= valid_range_end c)%Z) ->
  future_products (foldl (scan_cert w u) m l) !! pid = future_products m !! pid
  ∧ expired_products (foldl (scan_cert w u) m l) !! pid = expired_products m !! pid.
Proof.
  induction l as [|c l IH]; intros m Hl; simpl; [done|].
  destruct (IH (scan_cert w u m c)) as [-> ->].
  { intros c' Hc'. apply Hl, elem_of_cons. by right. }
  unfold scan_cert. set (m1 := if is_valid c then _ else m).
  assert (future_products m1 = future_products m
          ∧ expired_products m1 = expired_products m) as [<- <-]
    by (subst m1; by case_match).
  assert (∀ p, p ∈ products c ->
            product_id p ≠ pid
            ∨ (valid_range_begin c <= now w <= valid_range_end c)%Z) as Hps.
  { intros p Hp. destruct (decide (product_id p = pid)) as [<-|]; [right|by left].
    apply Hl; [apply elem_of_cons; by left|].
    apply list_elem_of_fmap. eauto. }
  generalize m1. clear -Hps.
  induction (products c) as [|p ps IHp]; intros m1; simpl; [done|].
  destruct IHp with (m1 := scan_product w u c m1 p) as [-> ->].
  { intros p' Hp'. apply Hps, elem_of_cons. by right. }
  apply scan_product_other, Hps, elem_of_cons. by left.
Qed.

(** The future and the expired bucket have nothing under an id all of whose
    covering certificates are in their validity range now. *)
Lemma uncovered_after_load w s r d pid :
  is_registered w = true -> load_status w = Some r -> heap s !! r = Some d ->
  complete d ->
  (∀ c, c ∈ entitlement_dir_list w -> pid ∈ product_id <$> products c ->
        (valid_range_begin c <= now w <= valid_range_end c)%Z) ->
  has_key (future_products (self (load w s).1)) pid = false
  ∧ has_key (expired_products (self (load w s).1)) pid = false.
Proof.
  intros Hreg Hst Hh Hd Hcov.
  rewrite (load_closed_form w s r d) by done. cbn [fst self]. simpl_store.
  unfold loaded_self.
  destruct (scan_loop_other w
              (unknown_products (foldl (file_unentitled w) (snapshot_self w d)
                                       (reported_pids w d)))
              (entitlement_dir_list w) pid
              (foldl (file_unentitled w) (snapshot_self w d) (reported_pids w d))
              Hcov) as [Hf He].
  rewrite !has_key_false, Hf, He, future_products_file, expired_products_file.
  simpl. by rewrite lookup_empty.
Qed.

(** X22: after a load with a snapshot, a product that the product
    directory finds, that is in neither dict of the server, that the server
    lists as non-compliant or, without simple content access, that is
    installed, and whose covering certificates are all in their validity
    range now, has the status "not_subscribed". *)
Theorem not_subscribed_status w s r d cp pcp ncp pid pc :
  is_registered w = true -> load_status w = Some r -> heap s !! r = Some d ->
  complete d ->
  compliantProducts d = Some cp ->
  partiallyCompliantProducts d = Some pcp ->
  nonCompliantProducts d = Some ncp ->
  cp !! pid = None -> pcp !! pid = None ->
  find_by_product w pid = Some pc ->
  pid ∈ ncp
  ∨ (is_simple_content_access w = false ∧ pid ∈ (get_installed_products w).*1) ->
  (∀ c, c ∈ entitlement_dir_list w -> pid ∈ product_id <$> products c ->
        (valid_range_begin c <= now w <= valid_range_end c)%Z) ->
  ∃ s', load w s = (s', Ok tt)
        ∧ get_status w (self s') pid = NOT_SUBSCRIBED.
Proof.
  intros Hreg Hst Hh Hd Hcp Hpcp Hncp Hv Hp Hfind Hrep Hcov.
  destruct (uncovered_after_load w s r d pid) as [Hf He]; try done.
  destruct (local_buckets_of_load w s r d cp pcp)
    as (s' & Hrun & Ev & Ep & _); try done.
  destruct (unentitled_of_load w s r d cp pcp ncp)
    as (s'' & Hrun' & Hun); try done.
  rewrite Hrun in Hrun'. injection Hrun' as <-.
  rewrite Hrun in Hf, He. cbn [fst] in Hf, He.
  exists s'. split; [done|]. unfold get_status.
  rewrite Hreg, Ev, Ep, Hf, He. simpl.
  rewrite (proj2 (has_key_false pcp pid) Hp), (proj2 (has_key_false cp pid) Hv).
  assert (has_key (unentitled_products (self s')) pid = true) as ->; [|done].
  apply has_key_true. exists pc. apply Hun. split; [done|]. tauto.
Qed.

Lemma not_subscribed_status_witness :
  ∃ s', load quiet_world quiet_store = (s', Ok tt)
        ∧ get_status quiet_world (self s') "p1" = NOT_SUBSCRIBED.
Proof.
  apply (not_subscribed_status quiet_world quiet_store 0%nat quiet_snapshot
           ∅ ∅ [] "p1" p1_cert); try reflexivity.
  - unfold complete. simpl. eauto 10.
  - right. split; [reflexivity|]. simpl. apply elem_of_cons. by left.
  - intros c Hc. simpl in Hc. by apply elem_of_nil in Hc.
Defined.

(** X23: with simple content access, after a load with a snapshot, a
    product that the server mentions in none of its three collections and
    whose covering certificates are all in their validity range now has
    the status UNKNOWN, also when it is installed. *)
Theorem sca_unmentioned_status w s r d cp pcp ncp pid :
  is_registered w = true -> load_status w = Some r -> heap s !! r = Some d ->
  complete d ->
  compliantProducts d = Some cp ->
  partiallyCompliantProducts d = Some pcp ->
  nonCompliantProducts d = Some ncp ->
  is_simple_content_access w = true ->
  cp !! pid = None -> pcp !! pid = None -> pid ∉ ncp ->
  (∀ c, c ∈ entitlement_dir_list w -> pid ∈ product_id <$> products c ->
        (valid_range_begin c <= now w <= valid_range_end c)%Z) ->
  ∃ s', load w s = (s', Ok tt)
        ∧ get_status w (self s') pid = UNKNOWN.
Proof.
  intros Hreg Hst Hh Hd Hcp Hpcp Hncp Hsca Hv Hp Hn Hcov.
  destruct (uncovered_after_load w s r d pid) as [Hf He]; try done.
  destruct (local_buckets_of_load w s r d cp pcp)
    as (s' & Hrun & Ev & Ep & _); try done.
  destruct (unentitled_of_load w s r d cp pcp ncp)
    as (s'' & Hrun' & Hun); try done.
  rewrite Hrun in Hrun'. injection Hrun' as <-.
  rewrite Hrun in Hf, He. cbn [fst] in Hf, He.
  exists s'. split; [done|]. unfold get_status.
  rewrite Hreg, Ev, Ep, Hf, He. simpl.
  rewrite (proj2 (has_key_false pcp pid) Hp), (proj2 (has_key_false cp pid) Hv).
  assert (has_key (unentitled_products (self s')) pid = false) as ->; [|done].
  apply has_key_false. apply eq_None_not_Some. intros [pc Hpc].
  apply Hun in Hpc as [_ [?|[? _]]]; [done|congruence].
Qed.

Lemma sca_unmentioned_status_witness :
  ∃ s', load sca_world quiet_store = (s', Ok tt)
        ∧ get_status sca_world (self s') "p1" = UNKNOWN.
Proof.
  apply (sca_unmentioned_status sca_world quiet_store 0%nat quiet_snapshot
           ∅ ∅ [] "p1"); try reflexivity.
  - unfold complete. simpl. eauto 10.
  - by intros ?%elem_of_nil.
  - intros c Hc. simpl in Hc. by apply elem_of_nil in Hc.
Defined.
